(** * An entity-component World and its tile-dragging systems

    A shallow embedding of [src/main.ts]: the component classes, the
    [World] registry with its query algebra, and the systems that snap
    tiles to the grid and drag them with the pointer.

    Conventions of the embedding.

    - A JavaScript [number] is an integer of [Z]: pixel coordinates, grid
      cells and entity ids are integers in the program, and on integers
      below 2^53 the arithmetic used here (+, -, *64, floor(_/64), <, >)
      is exact.  The one sum that grows with the length of a run,
      [++lastId], is modelled with the rounding of a double.
    - [Map<string, _>] (the registry) is a [gmap string _]: its iteration
      order is never used.  [Map<number, Component>] (one table per
      component class) is a list of entries in insertion order, because
      the queries iterate it.
    - An object whose fields are never assigned after its construction is
      represented by its value.  The two kinds of object the systems
      assign into, [Vector2] (x, y) and [GridPosition] (column, line),
      live in a store and are represented by their address, so that two
      components holding one [Vector2], or one [GridPosition] registered
      under two entities, share their fields as they do in the source.
    - The page is outside the program: images, the drawing context and the
      canvas are handles, the calls made on the context are collected in a
      list, and the events of the browser are a list of frames and mouse
      events. *)

From Stdlib Require Import ZArith Lia.
From stdpp Require Import base decidable option list gmap strings fin_maps sorting.

Local Open Scope Z_scope.

(** ** Plain data *)

Module Vector2.
Record t : Type := new { x : Z; y : Z }.
End Vector2.
Abbreviation Vector2 := Vector2.t.

Module Rectangle.
Record t : Type := new { x : Z; y : Z; w : Z; h : Z }.

Definition from (origin size : Vector2) : t :=
  new (Vector2.x origin) (Vector2.y origin) (Vector2.x size) (Vector2.y size).

Definition contains (this : t) (point : Vector2) : bool :=
  (Vector2.x point <? x this + w this) &&
  (Vector2.y point <? y this + h this) &&
  (Vector2.x point >? x this) &&
  (Vector2.y point >? y this).
End Rectangle.
Abbreviation Rectangle := Rectangle.t.

Abbreviation EntityId := Z.

(** Address of an object in the store. *)
Abbreviation ref := nat.

(** Opaque browser objects (images, canvas and drawing context). *)
Abbreviation Handle := nat.

(** ** Components *)

(** The fields [column] and [line] of a [GridPosition] object. *)
Record GridFields : Type := mkGridFields { column : Z; line : Z }.

(** [new_C args] is the object built by [new C(args)].  [position], [size]
    and [innerPosition] hold the address of a [Vector2]; a [GridPosition]
    is the address of its own fields. *)
Inductive Component : Type :=
| new_Position (position : ref)
| new_Size (size : ref)
| new_DisplayFrame (innerPosition : ref)
| new_GridPosition (this : ref)
| new_DisplayPlane (plane : EntityId)
| new_Sprite (image : Handle)
| new_Label (label : string)
| new_Dragged
| new_Draggable
| new_Canvas (ctx canvas : Handle)
| new_PlayerProperties (playerName : string).

#[global] Instance Component_eq_dec : EqDecision Component.
Proof. solve_decision. Defined.

(** A class is used by the registry through its [name] only. *)
Record Class : Type := mkClass { name : string }.

Definition Position : Class := mkClass "Position".
Definition Size : Class := mkClass "Size".
Definition DisplayFrame : Class := mkClass "DisplayFrame".
Definition GridPosition : Class := mkClass "GridPosition".
Definition DisplayPlane : Class := mkClass "DisplayPlane".
Definition Sprite : Class := mkClass "Sprite".
Definition Label : Class := mkClass "Label".
Definition Dragged : Class := mkClass "Dragged".
Definition Draggable : Class := mkClass "Draggable".
Definition Canvas : Class := mkClass "Canvas".
Definition PlayerProperties : Class := mkClass "PlayerProperties".

(** [component.constructor] *)
Definition constructor (component : Component) : Class :=
  match component with
  | new_Position _ => Position
  | new_Size _ => Size
  | new_DisplayFrame _ => DisplayFrame
  | new_GridPosition _ => GridPosition
  | new_DisplayPlane _ => DisplayPlane
  | new_Sprite _ => Sprite
  | new_Label _ => Label
  | new_Dragged => Dragged
  | new_Draggable => Draggable
  | new_Canvas _ _ => Canvas
  | new_PlayerProperties _ => PlayerProperties
  end.

(** ** [Map<number, Component>] in insertion order *)

Abbreviation Table := (list (EntityId * Component)).

Module Map.
Fixpoint get (m : Table) (key : EntityId) : option Component :=
  match m with
  | [] => None
  | (k, v) :: m' => if decide (k = key) then Some v else get m' key
  end.

(** An existing key keeps its place and takes the new value; a new key
    goes to the end. *)
Fixpoint set (m : Table) (key : EntityId) (value : Component) : Table :=
  match m with
  | [] => [(key, value)]
  | (k, v) :: m' =>
      if decide (k = key) then (key, value) :: m'
      else (k, v) :: set m' key value
  end.

(** The entry of the key, if any, goes; a Map holds one entry per key. *)
Definition delete (m : Table) (key : EntityId) : Table :=
  filter (λ kv, kv.1 ≠ key) m.

Definition keys (m : Table) : list EntityId := m.*1.
Definition values (m : Table) : list Component := m.*2.
Definition entries (m : Table) : Table := m.

(** [new Map(iterable)] sets the entries one after the other. *)
Definition of_entries (iterable : Table) : Table :=
  foldl (λ m kv, set m kv.1 kv.2) [] iterable.
End Map.

(** ** World *)

Record World : Type := mkWorld {
  registry : gmap string Table;
  lastId : Z
}.

Definition new_World : World := mkWorld ∅ 0.

(** [this.registry.has(n)] *)
Definition registry_has (w : World) (n : string) : bool :=
  bool_decide (is_Some (registry w !! n)).

Definition registry_set (w : World) (n : string) (t : Table) : World :=
  mkWorld (<[n := t]> (registry w)) (lastId w).

Definition register (w : World) (entityId : EntityId) (component : Component) : World :=
  let componentName := name (constructor component) in
  let w := if negb (registry_has w componentName)
           then registry_set w componentName [] else w in
  match registry w !! componentName with
  | Some t => registry_set w componentName (Map.set t entityId component)
  | None => w
  end.

Definition rescind (w : World) (entityId : EntityId) (componentName : string) : World :=
  let w := if negb (registry_has w componentName)
           then registry_set w componentName [] else w in
  match registry w !! componentName with
  | Some t => registry_set w componentName (Map.delete t entityId)
  | None => w
  end.

(** [++x] for a [number] that holds the integer [x].  A [number] is a
    double: it holds every integer up to 2^53 in absolute value, every
    second one from there up to 2^54, every fourth one up to 2^55, and so
    on.  While [x + 1] stays within 2^53 the sum is exact.  Beyond that
    [x + 1] is no double and is rounded to the nearest one, on a tie to
    the one with the even significand.  Next to a double [x] from -2^54
    up to, but not including, 2^54 (an even integer) it lies half way
    between the doubles [x] and [x + 2], whose significands are [x / 2]
    and [x / 2 + 1] in absolute value; next to any other double it is
    nearer to [x] than to any other double.
    (2^53 = 9007199254740992, 2^54 = 18014398509481984.) *)
Definition increment (x : Z) : Z :=
  if bool_decide (Z.abs (x + 1) ≤ 9007199254740992) then x + 1
  else if bool_decide (-18014398509481984 ≤ x < 18014398509481984) && Z.odd (x / 2)
       then x + 2
  else x.

(** [++this.lastId] is the one sum of the program that grows with the
    length of a run; it is modelled with its rounding. *)
Definition entity (w : World) (components : list Component) : EntityId * World :=
  let entityId := increment (lastId w) in
  let w := mkWorld (registry w) entityId in
  (entityId, foldl (λ w component, register w entityId component) w components).

Definition locate (w : World) (id : EntityId) (type : Class) : option Component :=
  t ← registry w !! name type; Map.get t id.

Definition query (w : World) (type : Class) : list Component :=
  match registry w !! name type with
  | Some components => Map.values components
  | None => []
  end.

Definition queryE (w : World) (type : Class) : Table :=
  match registry w !! name type with
  | Some components => Map.entries components
  | None => []
  end.

(** One element yielded by [queryEN]: the entity id, the primary component
    and one slot per other type, looked up when the element is produced. *)
Definition queryEN_row (w : World) (otherTypes : list Class)
    (entry : EntityId * Component) : EntityId * list (option Component) :=
  let '(entityId, primary) := entry in
  (entityId, [Some primary] ++ map (λ t, locate w entityId t) otherTypes).

Definition queryN_row (w : World) (otherTypes : list Class)
    (entry : EntityId * Component) : list (option Component) :=
  let '(entityId, primary) := entry in
  [Some primary] ++ map (λ t, locate w entityId t) otherTypes.

(** The sequences produced by the two generators when the World is not
    changed while they are consumed. *)
Definition queryEN (w : World) (primaryType : Class) (otherTypes : list Class)
    : list (EntityId * list (option Component)) :=
  match registry w !! name primaryType with
  | None => []
  | Some primaryComponents =>
      map (queryEN_row w otherTypes) (Map.entries primaryComponents)
  end.

Definition queryN (w : World) (primaryType : Class) (otherTypes : list Class)
    : list (list (option Component)) :=
  match registry w !! name primaryType with
  | None => []
  | Some primaryComponents =>
      map (queryN_row w otherTypes) (Map.entries primaryComponents)
  end.

Definition query2 (w : World) (type1 type2 : Class) := queryN w type1 [type2].
Definition query3 (w : World) (type1 type2 type3 : Class) :=
  queryN w type1 [type2; type3].
Definition queryE3 (w : World) (type1 type2 type3 : Class) :=
  queryEN w type1 [type2; type3].

(** ** Completions *)

Inductive Error : Type :=
| ComponentNotRegistered (type : string)
    (* [new Error(`Component not registered: ${type.name}`)] *)
| TypeError
    (* a property read from, or written to, [undefined] *)
| Corrupt.
    (* a state no execution produces: a component filed under another
       class's name, or an address outside the store *)

Inductive Completion (A : Type) : Type :=
| Normal (a : A)
| Throw (e : Error).
Arguments Normal {A} a.
Arguments Throw {A} e.

(** [components.values().next().value] is [undefined] on an empty table. *)
Definition queryUnique (w : World) (type : Class) : Completion (option Component) :=
  match registry w !! name type with
  | Some components => Normal (head (Map.values components))
  | None => Throw (ComponentNotRegistered (name type))
  end.

(** ** The state the systems run in *)

Record MouseEvent : Type := mkMouseEvent {
  clientX : Z; clientY : Z;
  movementX : Z; movementY : Z;
  buttons : Z
}.

(** A line written by [console.log] in [TileDragSystem.onMouseUp]: the
    player's name ([undefined] when the object has no such field), the
    entity and its new cell. *)
Record LogLine : Type := mkLogLine {
  log_player : option string;
  log_eid : EntityId;
  log_column : Z;
  log_line : Z
}.

Record State : Type := mkState {
  world : World;
  vectors : list Vector2;      (* the Vector2 objects, by address *)
  grids : list GridFields;     (* the fields of the GridPosition objects *)
  console : list LogLine
}.

(** State and exceptions: a thrown error keeps the state reached so far. *)
Definition M (A : Type) : Type := State → Completion A * State.

#[global] Instance M_ret : MRet M := λ A a s, (Normal a, s).
#[global] Instance M_bind : MBind M := λ A B f m s,
  match m s with
  | (Normal a, s') => f a s'
  | (Throw e, s') => (Throw e, s')
  end.

Definition throw {A} (e : Error) : M A := λ s, (Throw e, s).
Definition lift {A} (c : Completion A) : M A := λ s, (c, s).
Definition get_world : M World := λ s, (Normal (world s), s).
Definition modify_world (f : World → World) : M unit := λ s,
  (Normal tt, mkState (f (world s)) (vectors s) (grids s) (console s)).
Definition console_log (l : LogLine) : M unit := λ s,
  (Normal tt, mkState (world s) (vectors s) (grids s) (console s ++ [l])).

(** The state with one of its parts replaced. *)
Definition with_world (s : State) (w : World) : State :=
  mkState w (vectors s) (grids s) (console s).
Definition with_vectors (s : State) (vs : list Vector2) : State :=
  mkState (world s) vs (grids s) (console s).
Definition with_grids (s : State) (gs : list GridFields) : State :=
  mkState (world s) (vectors s) gs (console s).

(** Reading a member of [o], which may be [undefined]. *)
Definition member {A} (o : option A) : M A :=
  match o with
  | Some a => mret a
  | None => throw TypeError
  end.

(** The fields a component object has; any other object answers
    [undefined]. *)
Definition field_position (c : Component) : option ref :=
  match c with new_Position v => Some v | _ => None end.
Definition field_innerPosition (c : Component) : option ref :=
  match c with new_DisplayFrame v => Some v | _ => None end.
Definition field_plane (c : Component) : option EntityId :=
  match c with new_DisplayPlane p => Some p | _ => None end.
Definition field_playerName (c : Component) : option string :=
  match c with new_PlayerProperties n => Some n | _ => None end.

Definition Vector2_read (v : ref) : M Vector2 := λ s,
  match vectors s !! v with
  | Some vec => (Normal vec, s)
  | None => (Throw Corrupt, s)
  end.

Definition Vector2_write (v : ref) (f : Vector2 → Vector2) : M unit := λ s,
  match vectors s !! v with
  | Some vec =>
      (Normal tt, mkState (world s) (<[v := f vec]> (vectors s)) (grids s) (console s))
  | None => (Throw Corrupt, s)
  end.

(** [c.position] for a [c] that may be [undefined]; the result is the
    Vector2 object, or [undefined]. *)
Definition get_position (c : option Component) : M (option ref) :=
  this ← member c; mret (field_position this).

(** [c.innerPosition], likewise. *)
Definition get_innerPosition (c : option Component) : M (option ref) :=
  this ← member c; mret (field_innerPosition this).

(** [o.x] and [o.y] *)
Definition get_x (o : option ref) : M Z :=
  v ← member o; vec ← Vector2_read v; mret (Vector2.x vec).
Definition get_y (o : option ref) : M Z :=
  v ← member o; vec ← Vector2_read v; mret (Vector2.y vec).

(** [o.x = n] and [o.y = n] *)
Definition set_x (o : option ref) (n : Z) : M unit :=
  v ← member o; Vector2_write v (λ vec, Vector2.new n (Vector2.y vec)).
Definition set_y (o : option ref) (n : Z) : M unit :=
  v ← member o; Vector2_write v (λ vec, Vector2.new (Vector2.x vec) n).

(** The address of the fields of [c], a GridPosition that may be
    [undefined]. *)
Definition GridPosition_this (c : option Component) : M ref :=
  this ← member c;
  match this with
  | new_GridPosition g => mret g
  | _ => throw Corrupt
  end.

Definition GridFields_read (g : ref) : M GridFields := λ s,
  match grids s !! g with
  | Some fields => (Normal fields, s)
  | None => (Throw Corrupt, s)
  end.

Definition GridFields_write (g : ref) (f : GridFields → GridFields) : M unit := λ s,
  match grids s !! g with
  | Some fields =>
      (Normal tt, mkState (world s) (vectors s) (<[g := f fields]> (grids s)) (console s))
  | None => (Throw Corrupt, s)
  end.

(** [c.column], [c.line], [c.column = n] and [c.line = n] *)
Definition get_column (c : option Component) : M Z :=
  g ← GridPosition_this c; fields ← GridFields_read g; mret (column fields).
Definition get_line (c : option Component) : M Z :=
  g ← GridPosition_this c; fields ← GridFields_read g; mret (line fields).
Definition set_column (c : option Component) (n : Z) : M unit :=
  g ← GridPosition_this c;
  GridFields_write g (λ fields, mkGridFields n (line fields)).
Definition set_line (c : option Component) (n : Z) : M unit :=
  g ← GridPosition_this c;
  GridFields_write g (λ fields, mkGridFields (column fields) n).

(** ** Loops over the generators *)

Fixpoint for_of {X} (xs : list X) (body : X → M unit) : M unit :=
  match xs with
  | [] => mret tt
  | x :: xs' => body x;; for_of xs' body
  end.

(** [for (const row of world.queryEN(primaryType, otherTypes)) body].
    The generator fetches the primary table once and looks the other
    types up when it produces a row, in the World as it is then.  The
    bodies below never insert into the table being traversed and delete
    from it the entry being visited only, so the traversal meets the
    entries the table has when the loop starts. *)
Definition for_of_queryEN (primaryType : Class) (otherTypes : list Class)
    (body : EntityId * list (option Component) → M unit) : M unit :=
  w ← get_world;
  match registry w !! name primaryType with
  | None => mret tt
  | Some primaryComponents =>
      for_of (Map.entries primaryComponents) (λ entry,
        w ← get_world; body (queryEN_row w otherTypes entry))
  end.

Definition for_of_queryN (primaryType : Class) (otherTypes : list Class)
    (body : list (option Component) → M unit) : M unit :=
  w ← get_world;
  match registry w !! name primaryType with
  | None => mret tt
  | Some primaryComponents =>
      for_of (Map.entries primaryComponents) (λ entry,
        w ← get_world; body (queryN_row w otherTypes entry))
  end.

(** [row[i]] of an array of components: [undefined] past its end. *)
Definition at_index (row : list (option Component)) (i : nat) : option Component :=
  mjoin (row !! i).

(** ** Systems *)

Module GridPositionSystem.
Definition onFrame (delta : Z) : M unit :=
  for_of_queryN GridPosition [Position; Dragged] (λ row,
    let cGrid := at_index row 0 in
    let cPosition := at_index row 1 in
    let cDragged := at_index row 2 in
    if bool_decide (cDragged = None) then
      (position ← get_position cPosition;
       n ← get_column cGrid;
       set_x position (n * 64));;
      (position ← get_position cPosition;
       n ← get_line cGrid;
       set_y position (n * 64))
    else mret tt).
End GridPositionSystem.

Module CanvasSystem.
(** The result is read at once by the callers and is returned by
    value. *)
Definition screenPosition (frames : Table)
    (cPosition : option Component) (cPlane : option Component) : M Vector2 :=
  match cPlane with
  | None =>
      position ← get_position cPosition;
      x ← get_x position; y ← get_y position;
      mret (Vector2.new x y)
  | Some plane =>
      let frameStart :=
        p ← field_plane plane; frame ← Map.get frames p; field_innerPosition frame in
      position ← get_position cPosition;
      x ← get_x position; x0 ← get_x frameStart;
      position ← get_position cPosition;
      y ← get_y position; y0 ← get_y frameStart;
      mret (Vector2.new (x - x0) (y - y0))
  end.
End CanvasSystem.

Module ScrollDragSystem.
(** [event.buttons & 2] is the bit of the right button. *)
Definition onMouseMove (event : MouseEvent) : M unit :=
  if bool_decide (Z.land (buttons event) 2 ≠ 0) then
    w ← get_world;
    frame ← lift (queryUnique w DisplayFrame);
    (innerPosition ← get_innerPosition frame;
     x ← get_x innerPosition; set_x innerPosition (x - movementX event));;
    (innerPosition ← get_innerPosition frame;
     y ← get_y innerPosition; set_y innerPosition (y - movementY event))
  else mret tt.
End ScrollDragSystem.

Module TileDragSystem.
Definition screenPosition (frames : Table)
    (cPosition : option Component) (cPlane : option Component) : M Vector2 :=
  match cPlane with
  | None =>
      position ← get_position cPosition;
      x ← get_x position; y ← get_y position;
      mret (Vector2.new x y)
  | Some plane =>
      let frameStart :=
        p ← field_plane plane; frame ← Map.get frames p; field_innerPosition frame in
      position ← get_position cPosition;
      x ← get_x position; x0 ← get_x frameStart;
      position ← get_position cPosition;
      y ← get_y position; y0 ← get_y frameStart;
      mret (Vector2.new (x - x0) (y - y0))
  end.

Definition onMouseMove (event : MouseEvent) : M unit :=
  for_of_queryN Dragged [Position] (λ row,
    let cPosition := at_index row 1 in
    (position ← get_position cPosition;
     x ← get_x position; set_x position (x + movementX event));;
    (position ← get_position cPosition;
     y ← get_y position; set_y position (y + movementY event))).

(** A row of [queryE3] is the array [eid, primary, other1, other2]; the
    components of the row are numbered from the primary here. *)
Definition onMouseDown (event : MouseEvent) : M unit :=
  w ← get_world;
  let frames := Map.of_entries (queryE w DisplayFrame) in
  for_of_queryEN Draggable [Position; DisplayPlane] (λ '(eid, row),
    let cPosition := at_index row 1 in
    let cPlane := at_index row 2 in
    position ← screenPosition frames cPosition cPlane;
    if Rectangle.contains
         (Rectangle.from position (Vector2.new 64 64))
         (Vector2.new (clientX event) (clientY event))
    then modify_world (λ w, register w eid new_Dragged)
    else mret tt).

(** [Math.floor(a / 64)] is the quotient [a / 64] of [Z], which rounds
    down. *)
Definition onMouseUp (event : MouseEvent) : M unit :=
  w ← get_world;
  player ← lift (queryUnique w PlayerProperties);
  for_of_queryEN Dragged [Position; GridPosition] (λ '(eid, row),
    let cPosition := at_index row 1 in
    let cGrid := at_index row 2 in
    (position ← get_position cPosition;
     x ← get_x position;
     set_column cGrid ((x + 32) / 64));;
    (position ← get_position cPosition;
     y ← get_y position;
     set_line cGrid ((y + 32) / 64));;
    modify_world (λ w, rescind w eid (name Dragged));;
    (this ← member player;
     c ← get_column cGrid; l ← get_line cGrid;
     console_log (mkLogLine (field_playerName this) eid c l))).
End TileDragSystem.

(** ** Sequences of operations *)

(** The calls that act on a World: the three that change the registry,
    and the event handlers of the systems that write to it, which are
    [GridPositionSystem.onFrame], [ScrollDragSystem.onMouseMove] and the
    three handlers of [TileDragSystem]. *)
Inductive Op : Type :=
| Op_register (entityId : EntityId) (component : Component)
| Op_rescind (entityId : EntityId) (componentName : string)
| Op_entity (components : list Component)
| Op_onFrame (delta : Z)
| Op_onScroll (event : MouseEvent)
| Op_onMouseDown (event : MouseEvent)
| Op_onMouseMove (event : MouseEvent)
| Op_onMouseUp (event : MouseEvent).

(** The state after one call, and the id it returns when it is [entity].
    A handler that throws leaves the state it had reached. *)
Definition step (s : State) (op : Op) : State * option EntityId :=
  match op with
  | Op_register entityId component =>
      (with_world s (register (world s) entityId component), None)
  | Op_rescind entityId componentName =>
      (with_world s (rescind (world s) entityId componentName), None)
  | Op_entity components =>
      let '(entityId, w) := entity (world s) components in
      (with_world s w, Some entityId)
  | Op_onFrame delta => ((GridPositionSystem.onFrame delta s).2, None)
  | Op_onScroll event => ((ScrollDragSystem.onMouseMove event s).2, None)
  | Op_onMouseDown event => ((TileDragSystem.onMouseDown event s).2, None)
  | Op_onMouseMove event => ((TileDragSystem.onMouseMove event s).2, None)
  | Op_onMouseUp event => ((TileDragSystem.onMouseUp event s).2, None)
  end.

(** The final state and the ids returned, oldest first. *)
Fixpoint run (s : State) (ops : list Op) : State * list EntityId :=
  match ops with
  | [] => (s, [])
  | op :: ops' =>
      let '(s', r) := step s op in
      let '(s'', ids) := run s' ops' in
      (s'', match r with Some entityId => entityId :: ids | None => ids end)
  end.

(** ** Invariants of the representation *)

(** A [Map] holds one entry per key. *)
Definition keys_unique (w : World) : Prop :=
  map_Forall (λ _ (t : Table), NoDup (Map.keys t)) (registry w).

(** The addresses held by a component exist in the store. *)
Definition allocated (s : State) (c : Component) : Prop :=
  match c with
  | new_Position v | new_Size v | new_DisplayFrame v => (v < length (vectors s))%nat
  | new_GridPosition g => (g < length (grids s))%nat
  | _ => True
  end.

#[global] Instance allocated_dec (s : State) (c : Component) : Decision (allocated s c).
Proof. destruct c; simpl; apply _. Defined.

(** Every table has one entry per key, holds the components of its own
    class ([register] files a component under its constructor's name),
    and these hold addresses of the store. *)
Definition wf (s : State) : Prop :=
  map_Forall (λ n (t : Table),
    NoDup (Map.keys t) ∧
    Forall (λ kv, name (constructor kv.2) = n ∧ allocated s kv.2) t)
  (registry (world s)).

(** The computation keeps [P], whether it returns or throws. *)
Definition keeps {A} (P : State → Prop) (m : M A) : Prop := ∀ s, P s → P (m s).2.

(** [P] survives what the handlers do to a state: an assignment to a
    Vector2 or to a GridPosition, a line on the console, and the
    registration and rescission of a Dragged. *)
Class Stable (P : State → Prop) : Prop := {
  stable_vectors s v vec :
    (v < length (vectors s))%nat → P s → P (with_vectors s (<[v := vec]> (vectors s)));
  stable_grids s g fields :
    (g < length (grids s))%nat → P s → P (with_grids s (<[g := fields]> (grids s)));
  stable_console s l :
    P s → P (mkState (world s) (vectors s) (grids s) (console s ++ [l]));
  stable_flag s e :
    P s → P (with_world s (register (world s) e new_Dragged));
  stable_rescind s e n :
    P s → P (with_world s (rescind (world s) e n))
}.

(** The components a call brings in hold addresses of the store. *)
Definition op_allocated (s : State) (op : Op) : Prop :=
  match op with
  | Op_register _ component => allocated s component
  | Op_entity components => Forall (allocated s) components
  | _ => True
  end.

(** ** What an entity has *)

(** The coordinates of the entity's Position. *)
Definition position_of (s : State) (e : EntityId) : option Vector2 :=
  c ← locate (world s) e Position; v ← field_position c; vectors s !! v.

(** The cell of the entity's GridPosition. *)
Definition grid_of (s : State) (e : EntityId) : option GridFields :=
  c ← locate (world s) e GridPosition;
  match c with new_GridPosition g => grids s !! g | _ => None end.

(** No Vector2 is the position of two entities. *)
Definition positions_unshared (w : World) : Prop :=
  NoDup (omap (λ kv, field_position kv.2) (queryE w Position)).


(** The coordinates of the frame that entity [p] carries. *)
Definition frame_of (s : State) (p : EntityId) : option Vector2 :=
  c ← locate (world s) p DisplayFrame; v ← field_innerPosition c; vectors s !! v.

(** The position of the entity relative to the viewport it is anchored
    to: its own position when it has no DisplayPlane, and its position
    minus the inner position of the frame of its plane otherwise. *)
Definition screen_of (s : State) (e : EntityId) : option Vector2 :=
  p ← position_of s e;
  match locate (world s) e DisplayPlane with
  | None => Some p
  | Some c =>
      pl ← field_plane c; f ← frame_of s pl;
      Some (Vector2.new (Vector2.x p - Vector2.x f) (Vector2.y p - Vector2.y f))
  end.

(** ** What the handlers rely on *)

(** Every entity with a GridPosition and no Dragged has a Position. *)
Definition snap_ready (w : World) : Prop :=
  Forall (λ kv, locate w kv.1 Dragged = None → is_Some (locate w kv.1 Position))
    (queryE w GridPosition).

(** Every entity with a Dragged has a Position and a GridPosition. *)
Definition drop_ready (w : World) : Prop :=
  Forall (λ kv, is_Some (locate w kv.1 Position) ∧
                is_Some (locate w kv.1 GridPosition))
    (queryE w Dragged).

(** Every Draggable entity has a Position and, when it has a DisplayPlane,
    the entity this refers to has a DisplayFrame. *)
Definition hit_ready (s : State) : Prop :=
  Forall (λ kv, is_Some (screen_of s kv.1)) (queryE (world s) Draggable).

(** The pointer is strictly inside the 64 by 64 rectangle at [origin]. *)
Definition pointer_inside (event : MouseEvent) (origin : Vector2) : Prop :=
  Vector2.x origin < clientX event < Vector2.x origin + 64 ∧
  Vector2.y origin < clientY event < Vector2.y origin + 64.

(** The entity is Draggable and the pointer is inside its rectangle. *)
Definition under_pointer (s : State) (event : MouseEvent) (e : EntityId) : Prop :=
  is_Some (locate (world s) e Draggable) ∧
  ∃ origin, screen_of s e = Some origin ∧ pointer_inside event origin.

(** ** What the handlers do *)

(** [store[a] = v] for each [(a, v)] of [writes], in order. *)
Definition apply_writes {A} (store : list A) (writes : list (ref * A)) : list A :=
  foldl (λ store aw, <[aw.1 := aw.2]> store) store writes.

(** What [GridPositionSystem.onFrame] assigns for one entry of the
    GridPosition table. *)
Definition snap_write (s : State) (entry : EntityId * Component)
    : option (ref * Vector2) :=
  if bool_decide (locate (world s) entry.1 Dragged = None) then
    match entry.2 with
    | new_GridPosition g =>
        v ← locate (world s) entry.1 Position ≫= field_position;
        f ← grids s !! g;
        Some (v, Vector2.new (column f * 64) (line f * 64))
    | _ => None
    end
  else None.

Definition snap_writes (s : State) : list (ref * Vector2) :=
  omap (snap_write s) (queryE (world s) GridPosition).

(** The cell under the centre of a tile at [p]. *)
Definition cell_at (p : Vector2) : GridFields :=
  mkGridFields ((Vector2.x p + 32) / 64) ((Vector2.y p + 32) / 64).

(** What [TileDragSystem.onMouseUp] assigns for one entry of the Dragged
    table. *)
Definition drop_write (s : State) (entry : EntityId * Component)
    : option (ref * GridFields) :=
  p ← position_of s entry.1;
  c ← locate (world s) entry.1 GridPosition;
  match c with
  | new_GridPosition g => Some (g, cell_at p)
  | _ => None
  end.

Definition drop_writes (s : State) : list (ref * GridFields) :=
  omap (drop_write s) (queryE (world s) Dragged).

Definition drop_log (s : State) (player : Component) (entry : EntityId * Component)
    : option LogLine :=
  p ← position_of s entry.1;
  Some (mkLogLine (field_playerName player) entry.1
          (column (cell_at p)) (line (cell_at p))).

(** The test [TileDragSystem.onMouseDown] makes on an entity. *)
Definition hit (s : State) (event : MouseEvent) (e : EntityId) : bool :=
  match screen_of s e with
  | Some origin =>
      Rectangle.contains
        (Rectangle.from origin (Vector2.new 64 64))
        (Vector2.new (clientX event) (clientY event))
  | None => false
  end.

(** The entities that [TileDragSystem.onMouseDown] flags, in the order of
    the Draggable table. *)
Definition hits (s : State) (event : MouseEvent) : list EntityId :=
  filter (λ e, hit s event e = true) (Map.keys (queryE (world s) Draggable)).

(** [rescind(e, Dragged.name)] for each [e] of [es], in order. *)
Definition rescind_all (w : World) (es : list EntityId) : World :=
  foldl (λ w e, rescind w e (name Dragged)) w es.

(** [register(e, new Dragged())] for each [e] of [es], in order. *)
Definition flag_all (w : World) (es : list EntityId) : World :=
  foldl (λ w e, register w e new_Dragged) w es.

(** ** Typing of the tables *)

#[global] Instance Class_eq_dec : EqDecision Class.
Proof. solve_decision. Defined.

(** Every component is filed under the name of its constructor. *)
Definition filed (w : World) : Prop :=
  map_Forall (λ n (t : Table), Forall (λ kv, name (constructor kv.2) = n) t)
    (registry w).

(** ** Dragging *)

(** Every entity with a Dragged has a Position. *)
Definition drag_ready (w : World) : Prop :=
  Forall (λ kv, is_Some (locate w kv.1 Position)) (queryE w Dragged).

(** [p] moved by the movement of the pointer. *)
Definition moved (event : MouseEvent) (p : Vector2) : Vector2 :=
  Vector2.new (Vector2.x p + movementX event) (Vector2.y p + movementY event).

(** What [TileDragSystem.onMouseMove] assigns for one entry of the Dragged
    table, when no Vector2 is shared. *)
Definition drag_write (s : State) (event : MouseEvent)
    (entry : EntityId * Component) : option (ref * Vector2) :=
  v ← locate (world s) entry.1 Position ≫= field_position;
  p ← vectors s !! v;
  Some (v, moved event p).

Definition drag_writes (s : State) (event : MouseEvent) : list (ref * Vector2) :=
  omap (drag_write s event) (queryE (world s) Dragged).

(** A number of at most 2^51 in absolute value (2^51 = 2251799813685248):
    three of them add up within 2^53, where the sums of the code are
    exact. *)
Definition small (z : Z) : Prop := Z.abs z ≤ 2251799813685248.

(** ** The dispatcher *)

Module System.
(** The four handlers of a system. *)
Record t : Type := new {
  onFrame : Z → M unit;
  onMouseMove : MouseEvent → M unit;
  onMouseUp : MouseEvent → M unit;
  onMouseDown : MouseEvent → M unit
}.

(** [class System]: every handler does nothing. *)
Definition base : t :=
  new (λ _, mret tt) (λ _, mret tt) (λ _, mret tt) (λ _, mret tt).
End System.

Module SystemRegistry.
Definition onFrame (systems : list System.t) (delta : Z) : M unit :=
  for_of systems (λ system, System.onFrame system delta).

Definition onMouseDown (systems : list System.t) (event : MouseEvent) : M unit :=
  for_of systems (λ system, System.onMouseDown system event).

Definition onMouseMove (systems : list System.t) (event : MouseEvent) : M unit :=
  for_of systems (λ system, System.onMouseMove system event).

Definition onMouseUp (systems : list System.t) (event : MouseEvent) : M unit :=
  for_of systems (λ system, System.onMouseUp system event).

(** A registry is itself a system. *)
Definition new (systems : list System.t) : System.t :=
  System.new (onFrame systems) (onMouseMove systems)
    (onMouseUp systems) (onMouseDown systems).
End SystemRegistry.

(** ** Drawing *)

(** The calls made on a drawing context.  [clearRect ctx x y canvas]
    stands for [ctx.clearRect(x, y, canvas.width, canvas.height)]. *)
Inductive Draw : Type :=
| clearRect (ctx : Handle) (x y : Z) (canvas : Handle)
| fillStyle (ctx : Handle) (style : string)
| fillRect (ctx : Handle) (x y w h : Z)
| drawImage (ctx : Handle) (image : Handle) (x y : Z)
| font (ctx : Handle) (value : string)
| fillText (ctx : Handle) (text : string) (x y : Z).

(** What a loop draws, up to the first row whose body throws; a body
    throws before it draws. *)
Fixpoint draw_for {X} (xs : list X) (body : X → Completion (list Draw))
    : list Draw * Completion unit :=
  match xs with
  | [] => ([], Normal tt)
  | x :: xs' =>
      match body x with
      | Throw e => ([], Throw e)
      | Normal ds => let '(ds', c) := draw_for xs' body in (ds ++ ds', c)
      end
  end.

(** [CanvasSystem.onFrame]: the calls it makes on the context, and how it
    completes.  It reads the World and writes nothing to it.  [Corrupt]
    stands for a component found in the table of another class, which no
    call of [register] produces. *)
Definition CanvasSystem_onFrame (delta : Z) (s : State) : list Draw * Completion unit :=
  match queryUnique (world s) Canvas with
  | Throw e => ([], Throw e)
  | Normal None => ([], Throw TypeError)
  | Normal (Some (new_Canvas ctx canvas)) =>
      let frames := Map.of_entries (queryE (world s) DisplayFrame) in
      let background :=
        [clearRect ctx 0 0 canvas; fillStyle ctx "green"; fillRect ctx 10 10 150 200] in
      let '(sprites, c) :=
        draw_for (query3 (world s) Sprite Position DisplayPlane) (λ row,
          let cSprite := at_index row 0 in
          let cPosition := at_index row 1 in
          let cPlane := at_index row 2 in
          match (CanvasSystem.screenPosition frames cPosition cPlane s).1 with
          | Throw e => Throw e
          | Normal position =>
              match cSprite with
              | Some (new_Sprite image) =>
                  Normal [drawImage ctx image (Vector2.x position) (Vector2.y position)]
              | _ => Throw Corrupt
              end
          end) in
      match c with
      | Throw e => (background ++ sprites, Throw e)
      | Normal _ =>
          let '(labels, c) :=
            draw_for (query3 (world s) Label Position DisplayPlane) (λ row,
              let cLabel := at_index row 0 in
              let cPosition := at_index row 1 in
              let cPlane := at_index row 2 in
              match (CanvasSystem.screenPosition frames cPosition cPlane s).1 with
              | Throw e => Throw e
              | Normal position =>
                  match cLabel with
                  | Some (new_Label label) =>
                      Normal [font ctx "48px serif"; fillStyle ctx "black";
                              fillText ctx label (Vector2.x position + 15)
                                                 (Vector2.y position + 48)]
                  | _ => Throw Corrupt
                  end
              end) in
          (background ++ sprites ++ labels, c)
      end
  | Normal (Some _) => ([], Throw Corrupt)
  end.

(** What [CanvasSystem.onFrame] draws for one entry of the Sprite table
    and for one entry of the Label table. *)
Definition sprite_draws (s : State) (ctx : Handle) (entry : EntityId * Component)
    : list Draw :=
  match screen_of s entry.1, entry.2 with
  | Some position, new_Sprite image =>
      [drawImage ctx image (Vector2.x position) (Vector2.y position)]
  | _, _ => []
  end.

Definition label_draws (s : State) (ctx : Handle) (entry : EntityId * Component)
    : list Draw :=
  match screen_of s entry.1, entry.2 with
  | Some position, new_Label label =>
      [font ctx "48px serif"; fillStyle ctx "black";
       fillText ctx label (Vector2.x position + 15) (Vector2.y position + 48)]
  | _, _ => []
  end.

Definition background (ctx canvas : Handle) : list Draw :=
  [clearRect ctx 0 0 canvas; fillStyle ctx "green"; fillRect ctx 10 10 150 200].

(** Sprites and labels are drawn where [screen_of] says when every entity
    that has one has a screen position. *)
Definition draw_ready (s : State) : Prop :=
  Forall (λ kv, is_Some (screen_of s kv.1)) (queryE (world s) Sprite) ∧
  Forall (λ kv, is_Some (screen_of s kv.1)) (queryE (world s) Label).

(** ** The systems of [main] *)

Definition new_GridPositionSystem : System.t :=
  System.new GridPositionSystem.onFrame (System.onMouseMove System.base)
    (System.onMouseUp System.base) (System.onMouseDown System.base).

(** The canvas is not part of the state: of [CanvasSystem.onFrame] the
    state sees the completion only. *)
Definition new_CanvasSystem : System.t :=
  System.new (λ delta s, ((CanvasSystem_onFrame delta s).2, s))
    (System.onMouseMove System.base)
    (System.onMouseUp System.base) (System.onMouseDown System.base).

Definition new_ScrollDragSystem : System.t :=
  System.new (System.onFrame System.base) ScrollDragSystem.onMouseMove
    (System.onMouseUp System.base) (System.onMouseDown System.base).

Definition new_TileDragSystem : System.t :=
  System.new (System.onFrame System.base) TileDragSystem.onMouseMove
    TileDragSystem.onMouseUp TileDragSystem.onMouseDown.

(** [s.systems.push(...)], four times. *)
Definition main_systems : list System.t :=
  [new_GridPositionSystem; new_CanvasSystem; new_ScrollDragSystem; new_TileDragSystem].

(** What the browser delivers: an animation frame, on which [animate]
    calls [s.onFrame(w, 0)], or a mouse event. *)
Inductive Event : Type :=
| Frame
| MouseMove (event : MouseEvent)
| MouseUp (event : MouseEvent)
| MouseDown (event : MouseEvent).

Definition deliver (systems : list System.t) (ev : Event) : M unit :=
  match ev with
  | Frame => SystemRegistry.onFrame systems 0
  | MouseMove event => SystemRegistry.onMouseMove systems event
  | MouseUp event => SystemRegistry.onMouseUp systems event
  | MouseDown event => SystemRegistry.onMouseDown systems event
  end.

(** The events one after the other.  A handler that throws ends its own
    event only: the listeners stay registered, and [animate] requests the
    next frame before it calls [onFrame]. *)
Fixpoint play (systems : list System.t) (s : State) (events : list Event)
    : State * list (Completion unit) :=
  match events with
  | [] => (s, [])
  | ev :: events' =>
      let '(c, s') := deliver systems ev s in
      let '(s'', cs) := play systems s' events' in
      (s'', c :: cs)
  end.

(** ** The World of [main] *)

(** [new Vector2(x, y)] and [new GridPosition(column, line)]: the object
    goes to the next address of the store. *)
Definition alloc_Vector2 (s : State) (x y : Z) : ref * State :=
  (length (vectors s),
   mkState (world s) (vectors s ++ [Vector2.new x y]) (grids s) (console s)).

Definition alloc_GridPosition (s : State) (column line : Z) : Component * State :=
  (new_GridPosition (length (grids s)),
   mkState (world s) (vectors s) (grids s ++ [mkGridFields column line]) (console s)).

(** [w.entity(components)] on the World of the state. *)
Definition State_entity (s : State) (components : list Component) : EntityId * State :=
  let '(id, w) := entity (world s) components in (id, with_world s w).

(** [letter(line, column, label)] of [main]; [image] is the object that
    [a.image("tile")] returns. *)
Definition letter (frame : EntityId) (image : Handle) (s : State)
    (line column : Z) (label : string) : EntityId * State :=
  let '(v, s) := alloc_Vector2 s 100 0 in
  let '(cGrid, s) := alloc_GridPosition s column line in
  State_entity s
    [new_Position v; cGrid; new_DisplayPlane frame; new_Sprite image;
     new_Label label; new_Draggable].

(** The state when [main] starts to listen, given the images that
    [AssetStore.image] creates and the context and canvas that
    [Canvas.fromId] finds. *)
Definition main_state (image : nat → Handle) (ctx canvas : Handle) : State :=
  let s := mkState new_World [] [] [] in
  let '(v0, s) := alloc_Vector2 s 0 0 in
  let '(v1, s) := alloc_Vector2 s 400 400 in
  let '(v2, s) := alloc_Vector2 s 50 0 in
  let '(frame, s) :=
    State_entity s [new_Position v0; new_Size v1; new_DisplayFrame v2] in
  let '(_, s) := letter frame (image 0%nat) s 4 5 "H" in
  let '(_, s) := letter frame (image 1%nat) s 5 5 "E" in
  let '(_, s) := letter frame (image 2%nat) s 6 5 "L" in
  let '(_, s) := letter frame (image 3%nat) s 7 5 "L" in
  let '(_, s) := letter frame (image 4%nat) s 8 5 "O" in
  let '(_, s) :=
    State_entity s [new_Canvas ctx canvas; new_PlayerProperties "player1"] in
  s.

(** ** States in which no handler throws *)

Definition playable (s : State) : Prop :=
  wf s ∧
  snap_ready (world s) ∧
  drop_ready (world s) ∧
  Forall (λ kv, is_Some (screen_of s kv.1) ∧
                is_Some (locate (world s) kv.1 GridPosition))
    (queryE (world s) Draggable) ∧
  Forall (λ kv, is_Some (screen_of s kv.1)) (queryE (world s) Sprite) ∧
  Forall (λ kv, is_Some (screen_of s kv.1)) (queryE (world s) Label) ∧
  query (world s) Canvas ≠ [] ∧
  query (world s) DisplayFrame ≠ [] ∧
  query (world s) PlayerProperties ≠ [].

(** The tables other than that of Dragged are the same. *)
Definition same_board (w w' : World) : Prop :=
  ∀ n, n ≠ name Dragged → registry w' !! n = registry w !! n.

(** ** Example states *)

(** Two tiles; the second one is being dragged. *)
Definition tile_world : World :=
  (entity (entity (entity new_World
     [new_Position 0%nat; new_GridPosition 0%nat; new_Draggable]).2
     [new_Position 1%nat; new_GridPosition 1%nat; new_Draggable; new_Dragged]).2
     [new_Canvas 0%nat 0%nat; new_PlayerProperties "player1"]).2.

Definition tile_state : State :=
  mkState tile_world [Vector2.new 100 0; Vector2.new 7 9]
    [mkGridFields 5 4; mkGridFields 6 4] [].

(** Entity 1 has a GridPosition and no Position; entity 2 has both. *)
Definition orphan_grid_state : State :=
  mkState
    (entity (entity new_World [new_GridPosition 0%nat]).2
       [new_GridPosition 1%nat; new_Position 0%nat]).2
    [Vector2.new 0 0] [mkGridFields 1 1; mkGridFields 2 3] [].

(** Two entities in different cells hold one Vector2 as their position. *)
Definition shared_vector_state : State :=
  mkState
    (entity (entity new_World [new_GridPosition 0%nat; new_Position 0%nat]).2
       [new_GridPosition 1%nat; new_Position 0%nat]).2
    [Vector2.new 0 0] [mkGridFields 1 1; mkGridFields 2 3] [].

(** One tile at rest, and the player. *)
Definition rest_state : State :=
  mkState
    (entity (entity new_World
       [new_Position 0%nat; new_GridPosition 0%nat; new_Draggable]).2
       [new_PlayerProperties "player1"]).2
    [Vector2.new 320 256] [mkGridFields 5 4] [].

Definition empty_state : State := mkState new_World [] [] [].




(** A press of the left button at (10, 10). *)
Definition press : MouseEvent := mkMouseEvent 10 10 0 0 1.







(** * Properties *)

(** ** Tables *)

Section MapFacts.
Implicit Types (m : Table) (k : EntityId) (v : Component).

Lemma Map_get_set_eq m k v : Map.get (Map.set m k v) k = Some v.
Proof.
  induction m as [|[k' v'] m IH]; simpl.
  - by rewrite decide_True.
  - destruct (decide (k' = k)) as [->|Hne]; simpl.
    + by rewrite decide_True.
    + by rewrite decide_False.
Qed.

Lemma Map_get_set_ne m k k' v : k ≠ k' → Map.get (Map.set m k v) k' = Map.get m k'.
Proof.
  intros Hne. induction m as [|[k0 v0] m IH]; simpl.
  - by rewrite decide_False.
  - destruct (decide (k0 = k)) as [->|Hne0]; simpl.
    + by rewrite !decide_False.
    + by rewrite IH.
Qed.

Lemma Map_get_None m k : Map.get m k = None ↔ k ∉ Map.keys m.
Proof.
  unfold Map.keys. induction m as [|[k' v'] m IH]; simpl.
  - split; [intros _; apply not_elem_of_nil | done].
  - rewrite not_elem_of_cons. destruct (decide (k' = k)) as [->|Hne].
    + split; [done | intros [? _]; done].
    + rewrite IH. split; [intros ?; split; [congruence | done] | intros [_ ?]; done].
Qed.

Lemma Map_get_Some_elem m k v : Map.get m k = Some v → (k, v) ∈ m.
Proof.
  induction m as [|[k' v'] m IH]; simpl; [done|].
  destruct (decide (k' = k)) as [->|Hne].
  - intros [= ->]. apply list_elem_of_here.
  - intros H. apply list_elem_of_further. auto.
Qed.

Lemma Map_elem_get m k v : NoDup (Map.keys m) → (k, v) ∈ m → Map.get m k = Some v.
Proof.
  unfold Map.keys. induction m as [|[k' v'] m IH]; simpl.
  - intros _ H. by apply elem_of_nil in H.
  - rewrite NoDup_cons. intros [Hnotin Hnd] [Heq|Hin]%elem_of_cons.
    + injection Heq as -> ->. by rewrite decide_True.
    + destruct (decide (k' = k)) as [->|Hne]; [|auto].
      exfalso. apply Hnotin. apply list_elem_of_fmap. by exists (k, v).
Qed.

Lemma Map_keys_set_elem m k v k' :
  k' ∈ Map.keys (Map.set m k v) ↔ k' = k ∨ k' ∈ Map.keys m.
Proof.
  unfold Map.keys. induction m as [|[k0 v0] m IH]; simpl.
  - rewrite list_elem_of_singleton. split; [auto | intros [?|H]; [done|]].
    by apply elem_of_nil in H.
  - destruct (decide (k0 = k)) as [->|Hne]; simpl.
    + rewrite !elem_of_cons. tauto.
    + rewrite !elem_of_cons, IH. tauto.
Qed.

Lemma Map_keys_set_present m k v :
  k ∈ Map.keys m → Map.keys (Map.set m k v) = Map.keys m.
Proof.
  unfold Map.keys. induction m as [|[k0 v0] m IH]; simpl.
  - intros H. by apply elem_of_nil in H.
  - destruct (decide (k0 = k)) as [->|Hne]; simpl; [done|].
    intros [?|Hin]%elem_of_cons; [congruence|]. f_equal. auto.
Qed.

Lemma Map_set_NoDup m k v : NoDup (Map.keys m) → NoDup (Map.keys (Map.set m k v)).
Proof.
  induction m as [|[k0 v0] m IH]; simpl.
  - intros _. apply NoDup_singleton.
  - unfold Map.keys in *. simpl. rewrite NoDup_cons. intros [Hnotin Hnd].
    destruct (decide (k0 = k)) as [->|Hne]; simpl.
    + by apply NoDup_cons.
    + apply NoDup_cons. split; [|auto].
      intros [?|?]%Map_keys_set_elem; [congruence | done].
Qed.

Lemma Map_delete_NoDup m k : NoDup (Map.keys m) → NoDup (Map.keys (Map.delete m k)).
Proof.
  unfold Map.keys, Map.delete. induction m as [|[k' v'] m IH]; simpl; [done|].
  rewrite NoDup_cons. intros [Hnotin Hnd].
  rewrite filter_cons. case_decide; simpl; [|auto].
  apply NoDup_cons. split; [|auto].
  intros Hin. apply Hnotin.
  apply list_elem_of_fmap in Hin as [kv [-> Hkv]].
  apply list_elem_of_filter in Hkv as [_ Hkv].
  apply list_elem_of_fmap. by exists kv.
Qed.

Lemma Map_get_delete_eq m k : Map.get (Map.delete m k) k = None.
Proof.
  unfold Map.delete. induction m as [|[k' v'] m IH]; simpl; [done|].
  rewrite filter_cons. simpl. case_decide; simpl; [|done].
  by rewrite decide_False.
Qed.

Lemma Map_get_delete_ne m k k' : k ≠ k' → Map.get (Map.delete m k) k' = Map.get m k'.
Proof.
  intros Hne. unfold Map.delete. induction m as [|[k0 v0] m IH]; simpl; [done|].
  rewrite filter_cons. simpl.
  destruct (decide (k0 ≠ k)) as [Hk|Hk]; simpl.
  - by rewrite IH.
  - apply dec_stable in Hk. destruct (decide (k0 = k')); [congruence | done].
Qed.

Lemma Map_delete_absent m k : Map.get m k = None → Map.delete m k = m.
Proof.
  unfold Map.delete. induction m as [|[k' v'] m IH]; simpl; [done|].
  destruct (decide (k' = k)) as [->|Hne]; [done|].
  intros H. rewrite filter_cons. simpl. rewrite decide_True; [|done].
  by rewrite IH.
Qed.

Lemma Map_set_fresh m k v : k ∉ Map.keys m → Map.set m k v = m ++ [(k, v)].
Proof.
  unfold Map.keys. induction m as [|[k' v'] m IH]; simpl; [done|].
  rewrite not_elem_of_cons. intros [Hne Hnotin].
  rewrite decide_False; [|congruence]. by rewrite IH.
Qed.

Lemma Map_of_entries_NoDup m : NoDup (Map.keys m) → Map.of_entries m = m.
Proof.
  unfold Map.of_entries. change m with ([] ++ m) at 1 3.
  generalize (@nil (EntityId * Component)) as acc.
  induction m as [|[k v] m IH]; intros acc Hnd; simpl.
  - by rewrite app_nil_r.
  - rewrite Map_set_fresh.
    + rewrite (IH (acc ++ [(k, v)])); rewrite <- app_assoc; done.
    + unfold Map.keys in *. rewrite fmap_app in Hnd.
      apply NoDup_app in Hnd as (_ & Hdisj & _).
      intros Hin. apply (Hdisj k Hin). simpl. apply list_elem_of_here.
Qed.
End MapFacts.

Lemma Map_filter_key_absent (m : Table) (k : EntityId) :
  k ∉ Map.keys m → filter (λ kv, kv.1 = k) m = [].
Proof.
  unfold Map.keys. induction m as [|[k' v'] m IH]; csimpl; [done|].
  rewrite not_elem_of_cons. intros [Hne Hnotin].
  rewrite filter_cons. simpl. rewrite decide_False by congruence. auto.
Qed.

Lemma Map_filter_key (m : Table) (k : EntityId) (v : Component) :
  NoDup (Map.keys m) → Map.get m k = Some v →
  filter (λ kv, kv.1 = k) m = [(k, v)].
Proof.
  unfold Map.keys. induction m as [|[k' v'] m IH]; csimpl; [done|].
  rewrite NoDup_cons. intros [Hnotin Hnd].
  rewrite filter_cons. simpl. destruct (decide (k' = k)) as [->|Hne].
  - intros [= ->]. f_equal. by apply Map_filter_key_absent.
  - auto.
Qed.

(** ** The registry *)

Section WorldFacts.
Implicit Types (w : World) (e : EntityId) (c : Component) (T : Class) (n : string).

Lemma registry_register w e c :
  registry (register w e c) =
  <[name (constructor c) :=
      Map.set (default [] (registry w !! name (constructor c))) e c]> (registry w).
Proof.
  unfold register, registry_has.
  destruct (registry w !! name (constructor c)) as [t|] eqn:Ht.
  - rewrite bool_decide_true by eauto. simpl. by rewrite Ht.
  - rewrite bool_decide_false by (by intros [? ?]). simpl.
    rewrite lookup_insert_eq. simpl. by rewrite insert_insert_eq.
Qed.

Lemma lastId_register w e c : lastId (register w e c) = lastId w.
Proof.
  unfold register, registry_has.
  destruct (registry w !! name (constructor c)) as [t|] eqn:Ht.
  - rewrite bool_decide_true by eauto. simpl. by rewrite Ht.
  - rewrite bool_decide_false by (by intros [? ?]). simpl.
    by rewrite lookup_insert_eq.
Qed.

Lemma registry_rescind w e n :
  registry (rescind w e n) =
  <[n := Map.delete (default [] (registry w !! n)) e]> (registry w).
Proof.
  unfold rescind, registry_has.
  destruct (registry w !! n) as [t|] eqn:Ht.
  - rewrite bool_decide_true by eauto. simpl. by rewrite Ht.
  - rewrite bool_decide_false by (by intros [? ?]). simpl.
    rewrite lookup_insert_eq. simpl. by rewrite insert_insert_eq.
Qed.

Lemma lastId_rescind w e n : lastId (rescind w e n) = lastId w.
Proof.
  unfold rescind, registry_has.
  destruct (registry w !! n) as [t|] eqn:Ht.
  - rewrite bool_decide_true by eauto. simpl. by rewrite Ht.
  - rewrite bool_decide_false by (by intros [? ?]). simpl.
    by rewrite lookup_insert_eq.
Qed.

Lemma World_eq w w' : registry w = registry w' → lastId w = lastId w' → w = w'.
Proof. destruct w, w'; simpl; congruence. Qed.

Lemma rescind_absent_table w e n t :
  registry w !! n = Some t → Map.get t e = None → rescind w e n = w.
Proof.
  intros Ht Hget. apply World_eq; [|apply lastId_rescind].
  rewrite registry_rescind, Ht. simpl.
  rewrite Map_delete_absent by done. by apply insert_id.
Qed.

Lemma locate_register_eq w e c : locate (register w e c) e (constructor c) = Some c.
Proof.
  unfold locate. rewrite registry_register, lookup_insert_eq. simpl.
  apply Map_get_set_eq.
Qed.

Lemma locate_register_ne w e c e' T :
  e ≠ e' ∨ name T ≠ name (constructor c) →
  locate (register w e c) e' T = locate w e' T.
Proof.
  intros Hne. unfold locate. rewrite registry_register.
  destruct (decide (name (constructor c) = name T)) as [Heq|Hn].
  - destruct Hne as [Hne|Hne]; [|congruence].
    rewrite Heq, lookup_insert_eq. simpl. rewrite Map_get_set_ne by done.
    by destruct (registry w !! name T).
  - by rewrite lookup_insert_ne.
Qed.

Lemma locate_rescind_eq w e T : locate (rescind w e (name T)) e T = None.
Proof.
  unfold locate. rewrite registry_rescind, lookup_insert_eq. simpl.
  apply Map_get_delete_eq.
Qed.

Lemma locate_rescind_ne w e n e' T :
  e ≠ e' ∨ name T ≠ n → locate (rescind w e n) e' T = locate w e' T.
Proof.
  intros Hne. unfold locate. rewrite registry_rescind.
  destruct (decide (n = name T)) as [->|Hn].
  - destruct Hne as [Hne|Hne]; [|congruence].
    rewrite lookup_insert_eq. simpl. rewrite Map_get_delete_ne by done.
    by destruct (registry w !! name T).
  - by rewrite lookup_insert_ne.
Qed.

Lemma queryE_rescind_absent w e T T' :
  locate w e T = None → queryE (rescind w e (name T)) T' = queryE w T'.
Proof.
  unfold locate, queryE. intros Hloc. rewrite registry_rescind.
  destruct (decide (name T = name T')) as [Heq|Hn].
  - rewrite <- Heq, lookup_insert_eq.
    destruct (registry w !! name T) as [t|]; simpl in *; [|done].
    by rewrite Map_delete_absent.
  - by rewrite lookup_insert_ne.
Qed.

Lemma locate_rescind_absent w e T e' T' :
  locate w e T = None → locate (rescind w e (name T)) e' T' = locate w e' T'.
Proof.
  intros Hloc. destruct (decide (e = e' ∧ name T' = name T)) as [[-> Heq]|Hn].
  - unfold locate in *. rewrite Heq, registry_rescind, lookup_insert_eq. simpl.
    by rewrite Map_get_delete_eq, Hloc.
  - apply locate_rescind_ne.
    destruct (decide (e = e')); [right | left]; naive_solver.
Qed.

Lemma keys_unique_new_World : keys_unique new_World.
Proof. apply map_Forall_empty. Qed.

Lemma keys_unique_register w e c : keys_unique w → keys_unique (register w e c).
Proof.
  unfold keys_unique. intros Hw. rewrite registry_register.
  apply map_Forall_insert_2; [|done].
  apply Map_set_NoDup.
  destruct (registry w !! name (constructor c)) as [t|] eqn:Ht; simpl.
  - by apply (Hw _ _ Ht).
  - apply NoDup_nil_2.
Qed.

Lemma keys_unique_rescind w e n : keys_unique w → keys_unique (rescind w e n).
Proof.
  unfold keys_unique. intros Hw. rewrite registry_rescind.
  apply map_Forall_insert_2; [|done].
  apply Map_delete_NoDup.
  destruct (registry w !! n) as [t|] eqn:Ht; simpl.
  - by apply (Hw _ _ Ht).
  - apply NoDup_nil_2.
Qed.

Lemma entity_fold w e cs :
  lastId (foldl (λ w c, register w e c) w cs) = lastId w.
Proof.
  revert w. induction cs as [|c cs IH]; intros w; simpl; [done|].
  by rewrite IH, lastId_register.
Qed.

Lemma keys_unique_entity w cs : keys_unique w → keys_unique (entity w cs).2.
Proof.
  unfold entity. simpl. intros Hw.
  assert (keys_unique (mkWorld (registry w) (increment (lastId w)))) as Hw' by done.
  revert Hw'. generalize (mkWorld (registry w) (increment (lastId w))) as w'.
  generalize (increment (lastId w)) as e.
  induction cs as [|c cs IH]; intros e w' Hw'; simpl; [done|].
  apply IH. by apply keys_unique_register.
Qed.

Lemma queryUnique_no_table w T :
  registry w !! name T = None →
  queryUnique w T = Throw (ComponentNotRegistered (name T)).
Proof. unfold queryUnique. by intros ->. Qed.

Lemma queryUnique_throws_iff w T (err : Error) :
  queryUnique w T = Throw err ↔
  registry w !! name T = None ∧ err = ComponentNotRegistered (name T).
Proof.
  unfold queryUnique. destruct (registry w !! name T); split.
  - done.
  - by intros [? _].
  - by intros [= <-].
  - by intros [_ ->].
Qed.

Lemma queryUnique_single w T e c :
  queryE w T = [(e, c)] → queryUnique w T = Normal (Some c).
Proof.
  unfold queryE, queryUnique, Map.entries.
  destruct (registry w !! name T); [|done]. by intros ->.
Qed.

Lemma queryUnique_empty_table w T :
  registry w !! name T = Some [] → queryUnique w T = Normal None.
Proof. unfold queryUnique. by intros ->. Qed.
End WorldFacts.

Lemma query_queryE (w : World) (T : Class) : query w T = (queryE w T).*2.
Proof. unfold query, queryE. by destruct (registry w !! name T). Qed.

Lemma queryEN_queryE (w : World) (T : Class) (Us : list Class) :
  queryEN w T Us = map (queryEN_row w Us) (queryE w T).
Proof. unfold queryEN, queryE. by destruct (registry w !! name T). Qed.

Lemma queryN_queryE (w : World) (T : Class) (Us : list Class) :
  queryN w T Us = map (queryN_row w Us) (queryE w T).
Proof. unfold queryN, queryE. by destruct (registry w !! name T). Qed.

(** ** Registration and lookup *)

Lemma Map_set_present (t : Table) e c c' :
  Map.get t e = Some c →
  ∃ i, t !! i = Some (e, c) ∧ Map.set t e c' = <[i := (e, c')]> t.
Proof.
  induction t as [|[k v] t IH]; simpl; [done|].
  destruct (decide (k = e)) as [->|Hne].
  - intros [= ->]. by exists 0%nat.
  - intros Hget. destruct (IH Hget) as (i & Hi & Hset).
    exists (S i). split; [done|]. simpl. by rewrite Hset.
Qed.

(** C7. After [register(e, c)] with [c] of variant [V], [locate(e, V)] is
    [c]; after a second [register(e, c')] of the same variant,
    [locate(e, V)] is [c'], the entries of [V] hold exactly one entry for
    [e], and the table has not grown: the second instance replaces the
    first.  [query(V)] yields the components of these entries in their
    order: what it yielded before the second [register], with [c'] in
    the place of [c], the place of [e]. *)
Theorem register_then_locate (w : World) (e : EntityId) (c c' : Component) :
  keys_unique w →
  constructor c' = constructor c →
  let V := constructor c in
  let w1 := register w e c in
  let w2 := register w1 e c' in
  locate w1 e V = Some c ∧
  locate w2 e V = Some c' ∧
  filter (λ kv, kv.1 = e) (queryE w2 V) = [(e, c')] ∧
  length (query w2 V) = length (query w1 V) ∧
  query w2 V = (queryE w2 V).*2 ∧
  ∃ i, queryE w1 V !! i = Some (e, c) ∧
       query w1 V !! i = Some c ∧
       queryE w2 V = <[i := (e, c')]> (queryE w1 V) ∧
       query w2 V = <[i := c']> (query w1 V) ∧
       query w2 V !! i = Some c'.
Proof.
  intros Hw Hc V w1 w2.
  assert (locate w1 e V = Some c) as H1 by apply locate_register_eq.
  assert (locate w2 e V = Some c') as H2.
  { subst V w2. rewrite <- Hc. apply locate_register_eq. }
  assert (∃ i, queryE w1 V !! i = Some (e, c) ∧
               queryE w2 V = <[i := (e, c')]> (queryE w1 V)) as (i & Hi & Hset).
  { unfold queryE, Map.entries. subst w2. rewrite registry_register.
    rewrite Hc. fold V. rewrite lookup_insert_eq.
    unfold locate in H1.
    destruct (registry w1 !! name V) as [t|] eqn:Ht; [|done]. simpl in *.
    by apply Map_set_present. }
  split_and!; [done | done | | | apply query_queryE |].
  - assert (keys_unique w2) as Hw2 by (by do 2 apply keys_unique_register).
    unfold locate in H2. unfold queryE, Map.entries.
    destruct (registry w2 !! name V) as [t|] eqn:Ht; [|done]. simpl in H2.
    apply Map_filter_key; [|done]. apply (Hw2 _ _ Ht).
  - rewrite !query_queryE, !length_fmap, Hset. apply length_insert.
  - exists i. rewrite !query_queryE, Hset.
    assert ((queryE w1 V).*2 !! i = Some c) as Hi2
      by (by rewrite list_lookup_fmap, Hi).
    split_and!; [done | done | done | by rewrite list_fmap_insert |].
    rewrite list_fmap_insert. simpl.
    apply list_lookup_insert_eq. by eapply lookup_lt_Some.
Qed.

Lemma register_then_locate_witness :
  let w := (entity new_World [new_Label "H"; new_Draggable]).2 in
  let w1 := register w 1 (new_Label "E") in
  let w2 := register w1 1 (new_Label "L") in
  locate w1 1 Label = Some (new_Label "E") ∧
  locate w2 1 Label = Some (new_Label "L") ∧
  filter (λ kv, kv.1 = 1) (queryE w2 Label) = [(1, new_Label "L")] ∧
  length (query w2 Label) = length (query w1 Label) ∧
  query w2 Label = (queryE w2 Label).*2 ∧
  ∃ i, queryE w1 Label !! i = Some (1, new_Label "E") ∧
       query w1 Label !! i = Some (new_Label "E") ∧
       queryE w2 Label = <[i := (1, new_Label "L")]> (queryE w1 Label) ∧
       query w2 Label = <[i := new_Label "L"]> (query w1 Label) ∧
       query w2 Label !! i = Some (new_Label "L").
Proof.
  apply (register_then_locate
           (entity new_World [new_Label "H"; new_Draggable]).2
           1 (new_Label "E") (new_Label "L")).
  - apply (bool_decide_unpack _). vm_compute. exact I.
  - reflexivity.
Defined.

(** ** Rescission *)

(** C9, as the code has it.  When the entity has no component of type [T],
    [rescind(e, T)] leaves [lastId], every [locate] and every query by
    entries, by values and by join as they were, and leaves the World
    itself as it was when [T] has a table; and after [rescind(e, T)],
    [locate(e, T)] is absent. *)
Theorem rescind_absent_then_locate (w : World) (e : EntityId) (T : Class) :
  (locate w e T = None →
     let w' := rescind w e (name T) in
     lastId w' = lastId w ∧
     (∀ e' T', locate w' e' T' = locate w e' T') ∧
     (∀ T', queryE w' T' = queryE w T') ∧
     (∀ T', query w' T' = query w T') ∧
     (∀ T' Us, queryEN w' T' Us = queryEN w T' Us) ∧
     (∀ T' Us, queryN w' T' Us = queryN w T' Us) ∧
     (is_Some (registry w !! name T) → w' = w)) ∧
  locate (rescind w e (name T)) e T = None.
Proof.
  split; [|apply locate_rescind_eq].
  intros Hloc w'.
  assert (∀ e' T', locate w' e' T' = locate w e' T') as Hl
    by (intros; by apply locate_rescind_absent).
  assert (∀ T', queryE w' T' = queryE w T') as Hq
    by (intros; by apply queryE_rescind_absent).
  split_and!; [apply lastId_rescind | done | done | | | |].
  - intros T'. by rewrite !query_queryE, Hq.
  - intros T' Us. rewrite !queryEN_queryE, Hq.
    apply map_ext. intros [e' p]. unfold queryEN_row. do 2 f_equal.
    apply map_ext. intros U. apply Hl.
  - intros T' Us. rewrite !queryN_queryE, Hq.
    apply map_ext. intros [e' p]. unfold queryN_row. f_equal.
    apply map_ext. intros U. apply Hl.
  - intros [t Ht]. unfold locate in Hloc. rewrite Ht in Hloc. simpl in Hloc.
    by apply (rescind_absent_table w e (name T) t).
Qed.

Lemma rescind_absent_then_locate_witness :
  let w := (entity new_World [new_Label "H"; new_Draggable]).2 in
  locate w 1 Dragged = None ∧
  rescind w 5 (name Label) = w ∧
  (∀ e' T', locate (rescind w 1 (name Dragged)) e' T' = locate w e' T') ∧
  locate (rescind w 1 (name Label)) 1 Label = None.
Proof.
  intros w.
  destruct (rescind_absent_then_locate w 5 Label) as [Hkeep _].
  destruct (rescind_absent_then_locate w 1 Dragged) as [Hnew _].
  destruct (rescind_absent_then_locate w 1 Label) as [_ Hgone].
  split_and!; [reflexivity | | | exact Hgone].
  - apply Hkeep; [reflexivity | eexists; vm_compute; reflexivity].
  - apply Hnew. reflexivity.
Defined.

(** The part of C9 that fails: on a World with no table for the type,
    [rescind] creates one, and [queryUnique] tells the difference. *)
Lemma rescind_absent_changes_world :
  let w := new_World in
  let w' := rescind w 1 (name Dragged) in
  locate w 1 Dragged = None ∧
  w' ≠ w ∧
  queryUnique w Dragged = Throw (ComponentNotRegistered "Dragged") ∧
  queryUnique w' Dragged = Normal None.
Proof.
  split_and!; [reflexivity | | reflexivity | reflexivity].
  intros H. apply (f_equal (λ w, registry w !! "Dragged")) in H.
  vm_compute in H. discriminate H.
Qed.

(** C10. On a World with no table for [T], [rescind(e, T)] creates an
    empty table for [T]: [queryUnique(T)], which raised before, returns
    [undefined] afterwards, although no entity has a [T] before or
    after. *)
Theorem rescind_creates_table (w : World) (e : EntityId) (T : Class) :
  registry w !! name T = None →
  let w' := rescind w e (name T) in
  registry w' !! name T = Some [] ∧
  queryUnique w T = Throw (ComponentNotRegistered (name T)) ∧
  queryUnique w' T = Normal None ∧
  (∀ e', locate w e' T = None) ∧
  (∀ e', locate w' e' T = None).
Proof.
  intros Hno w'.
  assert (registry w' !! name T = Some []) as Ht.
  { subst w'. by rewrite registry_rescind, lookup_insert_eq, Hno. }
  split_and!; [done | by apply queryUnique_no_table | by apply queryUnique_empty_table | |].
  - intros e'. unfold locate. by rewrite Hno.
  - intros e'. unfold locate. by rewrite Ht.
Qed.

Lemma rescind_creates_table_witness :
  let w := (entity new_World [new_Label "H"; new_Draggable]).2 in
  let w' := rescind w 7 (name Dragged) in
  registry w !! name Dragged = None ∧
  registry w' !! name Dragged = Some [] ∧
  queryUnique w Dragged = Throw (ComponentNotRegistered (name Dragged)) ∧
  queryUnique w' Dragged = Normal None ∧
  (∀ e', locate w e' Dragged = None) ∧
  (∀ e', locate w' e' Dragged = None).
Proof.
  split; [reflexivity|].
  apply (rescind_creates_table
           (entity new_World [new_Label "H"; new_Draggable]).2 7 Dragged).
  reflexivity.
Defined.

(** ** The singleton query *)

(** C1, where the code departs from it: the table of [Dragged] exists and
    is empty once a drag has ended, no instance of [Dragged] is left, and
    [queryUnique(Dragged)] returns [undefined] instead of raising. *)
Theorem queryUnique_on_empty_table :
  let w := rescind (register new_World 1 new_Dragged) 1 (name Dragged) in
  query w Dragged = [] ∧
  queryUnique w Dragged = Normal None.
Proof. split; reflexivity. Qed.

(** ** The join *)

Lemma queryEN_rows_keys (w : World) (Us : list Class) (t : Table) :
  (map (queryEN_row w Us) t).*1 = Map.keys t.
Proof.
  unfold Map.keys. induction t as [|[e p] t IH]; csimpl; [done|]. by f_equal.
Qed.

Lemma queryEN_rows_filter (w : World) (Us : list Class) (t : Table) (e : EntityId) :
  filter (λ r, r.1 = e) (map (queryEN_row w Us) t) =
  map (queryEN_row w Us) (filter (λ kv, kv.1 = e) t).
Proof.
  induction t as [|[e' p] t IH]; csimpl; [done|].
  rewrite !filter_cons. simpl. destruct (decide (e' = e)); csimpl; by f_equal.
Qed.

(** C3. [queryN(T, Us)] yields one tuple per entry of [T]'s table, in the
    order of the table: the tuples are those of [queryEN] without the
    entity id, and the entity ids of [queryEN] are the keys of the table.
    An entity without [T] has no tuple; an entity with instance [t] of [T]
    has exactly one, made of [t] and of [locate(e, U)], possibly absent,
    for each [U] of [Us]; and without a table for [T] nothing is
    yielded. *)
Theorem queryN_left_join (w : World) (T : Class) (Us : list Class) :
  keys_unique w →
  queryN w T Us = (queryEN w T Us).*2 ∧
  (queryEN w T Us).*1 = Map.keys (queryE w T) ∧
  (∀ e, locate w e T = None → e ∉ (queryEN w T Us).*1) ∧
  (∀ e t, locate w e T = Some t →
     filter (λ r, r.1 = e) (queryEN w T Us) =
     [(e, Some t :: map (λ U, locate w e U) Us)]) ∧
  (registry w !! name T = None → queryN w T Us = []).
Proof.
  intros Hw. rewrite queryN_queryE, queryEN_queryE.
  split_and!.
  - rewrite <- list_fmap_compose. apply list_fmap_ext. by intros _ [e p] _.
  - apply queryEN_rows_keys.
  - intros e Hloc. rewrite queryEN_rows_keys. unfold locate, queryE in *.
    destruct (registry w !! name T) as [t|]; simpl in *.
    + by apply Map_get_None.
    + apply not_elem_of_nil.
  - intros e t Hloc. rewrite queryEN_rows_filter. unfold locate, queryE, Map.entries in *.
    destruct (registry w !! name T) as [m|] eqn:Hm; simpl in *; [|done].
    rewrite (Map_filter_key m e t); [done | apply (Hw _ _ Hm) | done].
  - unfold queryE. by intros ->.
Qed.

Lemma queryN_left_join_witness :
  let w := (entity (entity new_World [new_Position 0%nat]).2
              [new_Position 1%nat; new_GridPosition 0%nat]).2 in
  queryN w Position [GridPosition] =
    [[Some (new_Position 0%nat); None];
     [Some (new_Position 1%nat); Some (new_GridPosition 0%nat)]] ∧
  queryN w GridPosition [Position; Dragged] =
    [[Some (new_GridPosition 0%nat); Some (new_Position 1%nat); None]] ∧
  queryN w Dragged [Position] = [] ∧
  ∀ e t, locate w e Position = Some t →
    filter (λ r, r.1 = e) (queryEN w Position [GridPosition]) =
    [(e, Some t :: map (λ U, locate w e U) [GridPosition])].
Proof.
  split_and!; [reflexivity | reflexivity | reflexivity |].
  apply (queryN_left_join
           (entity (entity new_World [new_Position 0%nat]).2
              [new_Position 1%nat; new_GridPosition 0%nat]).2
           Position [GridPosition]).
  apply (bool_decide_unpack _). vm_compute. exact I.
Defined.

(** ** Running the monad *)

Lemma bind_Normal {A B} (m : M A) (f : A → M B) s a s' :
  m s = (Normal a, s') → (m ≫= f) s = f a s'.
Proof. intros H. unfold mbind, M_bind. by rewrite H. Qed.

Lemma bind_Throw {A B} (m : M A) (f : A → M B) s e s' :
  m s = (Throw e, s') → (m ≫= f) s = (Throw e, s').
Proof. intros H. unfold mbind, M_bind. by rewrite H. Qed.

Lemma get_world_eq s : get_world s = (Normal (world s), s).
Proof. done. Qed.

Lemma get_position_Some c s : get_position (Some c) s = (Normal (field_position c), s).
Proof. done. Qed.

Lemma get_position_None s : get_position None s = (Throw TypeError, s).
Proof. done. Qed.

Ltac unfold_M :=
  unfold get_x, get_y, set_x, set_y, get_column, get_line, set_column, set_line,
    GridPosition_this, member, Vector2_read, Vector2_write,
    GridFields_read, GridFields_write;
  unfold mbind, mret, M_bind, M_ret.

Lemma get_x_Some v vec s :
  vectors s !! v = Some vec → get_x (Some v) s = (Normal (Vector2.x vec), s).
Proof. intros H. unfold_M. by rewrite H. Qed.

Lemma get_y_Some v vec s :
  vectors s !! v = Some vec → get_y (Some v) s = (Normal (Vector2.y vec), s).
Proof. intros H. unfold_M. by rewrite H. Qed.

Lemma set_x_Some v vec n s :
  vectors s !! v = Some vec →
  set_x (Some v) n s =
  (Normal tt, with_vectors s (<[v := Vector2.new n (Vector2.y vec)]> (vectors s))).
Proof. intros H. unfold_M. by rewrite H. Qed.

Lemma set_y_Some v vec n s :
  vectors s !! v = Some vec →
  set_y (Some v) n s =
  (Normal tt, with_vectors s (<[v := Vector2.new (Vector2.x vec) n]> (vectors s))).
Proof. intros H. unfold_M. by rewrite H. Qed.

Lemma get_column_Some g f s :
  grids s !! g = Some f →
  get_column (Some (new_GridPosition g)) s = (Normal (column f), s).
Proof. intros H. unfold_M. by rewrite H. Qed.

Lemma get_line_Some g f s :
  grids s !! g = Some f →
  get_line (Some (new_GridPosition g)) s = (Normal (line f), s).
Proof. intros H. unfold_M. by rewrite H. Qed.

(** ** Assignments *)

Section Writes.
Context {A : Type}.
Implicit Types (store : list A) (ws : list (ref * A)) (a : ref) (v : A).

Lemma apply_writes_length store ws : length (apply_writes store ws) = length store.
Proof.
  revert store. induction ws as [|[a v] ws IH]; intros store; simpl; [done|].
  by rewrite IH, length_insert.
Qed.

Lemma apply_writes_lookup_other store ws a :
  a ∉ ws.*1 → apply_writes store ws !! a = store !! a.
Proof.
  revert store. induction ws as [|[a0 v0] ws IH]; intros store; csimpl; [done|].
  rewrite not_elem_of_cons. intros [Hne Hnotin].
  rewrite IH by done. by apply list_lookup_insert_ne.
Qed.

Lemma apply_writes_lookup store ws a v :
  (a, v) ∈ ws → (∀ v', (a, v') ∈ ws → v' = v) → (a < length store)%nat →
  apply_writes store ws !! a = Some v.
Proof.
  revert store. induction ws as [|[a0 v0] ws IH]; intros store Hin Hsame Hlt; csimpl.
  - by apply elem_of_nil in Hin.
  - destruct (decide (a ∈ ws.*1)) as [Hlater|Hlast].
    + apply list_elem_of_fmap in Hlater as [[a' v'] [Ha Hin']]. simpl in Ha. subst a'.
      assert (v' = v) as -> by (apply Hsame; by apply list_elem_of_further).
      apply IH; [done | | by rewrite length_insert].
      intros v'' Hv''. apply Hsame. by apply list_elem_of_further.
    + rewrite apply_writes_lookup_other by done.
      apply elem_of_cons in Hin as [Heq|Hin].
      * injection Heq as -> ->. by apply list_lookup_insert_eq.
      * exfalso. apply Hlast. apply list_elem_of_fmap. by exists (a, v).
Qed.

Lemma apply_writes_id store ws :
  (∀ a v, (a, v) ∈ ws → store !! a = Some v) → apply_writes store ws = store.
Proof.
  induction ws as [|[a0 v0] ws IH]; intros H; csimpl; [done|].
  rewrite list_insert_id by (apply H, list_elem_of_here).
  apply IH. intros a v Hin. apply H. by apply list_elem_of_further.
Qed.
End Writes.

(** ** Well-formed states *)

Lemma wf_keys_unique s : wf s → keys_unique (world s).
Proof. unfold wf, keys_unique. intros H. eapply map_Forall_impl; [exact H|]. by intros n t [? _]. Qed.

Lemma wf_entry s T t e c :
  wf s → registry (world s) !! name T = Some t → (e, c) ∈ t →
  constructor c = T ∧ allocated s c.
Proof.
  intros Hwf Ht Hin. destruct (Hwf _ _ Ht) as [_ Hall].
  rewrite Forall_forall in Hall. destruct (Hall _ Hin) as [Hn Ha]. simpl in *.
  split; [|done]. destruct (constructor c), T. simpl in *. by subst.
Qed.

Lemma wf_locate s e T c :
  wf s → locate (world s) e T = Some c → constructor c = T ∧ allocated s c.
Proof.
  unfold locate. intros Hwf Hloc.
  destruct (registry (world s) !! name T) as [t|] eqn:Ht; simpl in *; [|done].
  apply (wf_entry s T t e c Hwf Ht). by apply Map_get_Some_elem.
Qed.

Lemma constructor_Position c : constructor c = Position → ∃ v, c = new_Position v.
Proof. destruct c; try done. eauto. Qed.

Lemma constructor_GridPosition c : constructor c = GridPosition → ∃ g, c = new_GridPosition g.
Proof. destruct c; try done. eauto. Qed.

Lemma onFrame_writes delta s :
  wf s → snap_ready (world s) →
  GridPositionSystem.onFrame delta s =
  (Normal tt, with_vectors s (apply_writes (vectors s) (snap_writes s))).
Proof.
  intros Hwf Hready.
  unfold GridPositionSystem.onFrame, for_of_queryN, snap_writes, snap_ready, queryE in *.
  erewrite bind_Normal by apply get_world_eq.
  destruct (registry (world s) !! name GridPosition) as [t|] eqn:Ht; [|by destruct s].
  unfold Map.entries in *.
  match goal with |- context [for_of _ ?b] => set (body := b) end.
  assert (∀ t' vs, length vs = length (vectors s) →
            Forall (λ kv, locate (world s) kv.1 Dragged = None →
                          is_Some (locate (world s) kv.1 Position)) t' →
            Forall (λ kv, kv ∈ t) t' →
            for_of t' body (with_vectors s vs) =
            (Normal tt, with_vectors s (apply_writes vs (omap (snap_write s) t'))))
    as Hloop.
  { clear Hready. induction t' as [|[e c] t' IH]; intros vs Hlen Hready Hsub; [done|].
    apply Forall_cons in Hready as [Hr Hready]. apply Forall_cons in Hsub as [Hin Hsub].
    simpl in Hr.
    destruct (wf_entry s GridPosition t e c Hwf Ht Hin) as [[g ->]%constructor_GridPosition Hg].
    simpl in Hg. apply lookup_lt_is_Some in Hg as [f Hf].
    csimpl. unfold snap_write at 1. simpl.
    destruct (locate (world s) e Dragged) as [d|] eqn:Hd.
    - rewrite bool_decide_false by done.
      erewrite bind_Normal; [by apply IH|].
      subst body. simpl. erewrite bind_Normal by apply get_world_eq.
      simpl. unfold at_index. simpl. rewrite Hd.
      by rewrite bool_decide_false.
    - rewrite bool_decide_true by done.
      destruct Hr as [cp Hcp]; [done|].
      destruct (wf_locate s e Position cp Hwf Hcp) as [[v ->]%constructor_Position Hv].
      simpl in Hv. rewrite <- Hlen in Hv. apply lookup_lt_is_Some in Hv as [vec Hvec].
      rewrite Hcp. simpl. rewrite Hf. simpl.
      erewrite bind_Normal;
        [apply (IH (<[v := Vector2.new (column f * 64) (line f * 64)]> vs));
           [by rewrite length_insert | done | done]|].
      subst body. simpl. erewrite bind_Normal by apply get_world_eq.
      simpl. unfold at_index. simpl. rewrite Hd, Hcp.
      rewrite bool_decide_true by done.
      erewrite bind_Normal; cycle 1.
      { erewrite bind_Normal by apply get_position_Some.
        erewrite bind_Normal by (by apply get_column_Some).
        simpl. by apply set_x_Some. }
      erewrite bind_Normal by apply get_position_Some.
      erewrite bind_Normal by (by apply get_line_Some).
      simpl. erewrite set_y_Some; cycle 1.
      { simpl. apply list_lookup_insert_eq. by eapply lookup_lt_Some. }
      unfold with_vectors. simpl. by rewrite list_insert_insert_eq. }
  replace s with (with_vectors s (vectors s)) at 1 by (by destruct s).
  apply Hloop; [done | done |]. apply Forall_forall. auto.
Qed.

(** ** Snapping to the grid *)

Lemma NoDup_omap_inj {A B} (f : A → option B) (l : list A) x y z :
  NoDup (omap f l) → x ∈ l → y ∈ l → f x = Some z → f y = Some z →
  ∃ i, l !! i = Some x ∧ l !! i = Some y.
Proof.
  induction l as [|a l IH]; csimpl; intros Hnd Hx Hy Hfx Hfy.
  - by apply elem_of_nil in Hx.
  - assert (∀ u, u ∈ l → f u = Some z → z ∈ omap f l) as Hmem.
    { intros u Hu Hfu. apply list_elem_of_omap. eauto. }
    apply elem_of_cons in Hx as [->|Hx]; apply elem_of_cons in Hy as [->|Hy].
    + by exists 0%nat.
    + rewrite Hfx in Hnd. apply NoDup_cons in Hnd as [Hn _]. exfalso. eauto.
    + rewrite Hfy in Hnd. apply NoDup_cons in Hnd as [Hn _]. exfalso. eauto.
    + destruct (f a); [apply NoDup_cons in Hnd as [_ Hnd]|];
        destruct (IH Hnd Hx Hy Hfx Hfy) as [i Hi]; by exists (S i).
Qed.

Lemma positions_unshared_inj w e e' c c' v :
  positions_unshared w →
  locate w e Position = Some c → field_position c = Some v →
  locate w e' Position = Some c' → field_position c' = Some v →
  e = e'.
Proof.
  unfold positions_unshared, locate, queryE, Map.entries.
  destruct (registry w !! name Position) as [t|]; simpl; [|done].
  intros Hnd Hc Hv Hc' Hv'.
  apply Map_get_Some_elem in Hc, Hc'.
  destruct (NoDup_omap_inj (λ kv, field_position kv.2) t (e, c) (e', c') v)
    as [i [H1 H2]]; try done.
  congruence.
Qed.

Lemma wf_with_vectors s vs :
  length vs = length (vectors s) → wf s → wf (with_vectors s vs).
Proof.
  intros Hlen Hwf. unfold wf in *. simpl.
  eapply map_Forall_impl; [exact Hwf|]. simpl.
  intros n t [Hnd Hall]. split; [done|].
  eapply Forall_impl; [exact Hall|]. simpl.
  intros [e c] [? Ha]. split; [done|]. destruct c; simpl in *; try done; by rewrite Hlen.
Qed.

Lemma snap_writes_with_vectors s vs : snap_writes (with_vectors s vs) = snap_writes s.
Proof. done. Qed.

Lemma elem_of_snap_writes s v a :
  (v, a) ∈ snap_writes s ↔
  ∃ e g f c,
    (e, new_GridPosition g) ∈ queryE (world s) GridPosition ∧
    locate (world s) e Dragged = None ∧
    locate (world s) e Position = Some c ∧ field_position c = Some v ∧
    grids s !! g = Some f ∧
    a = Vector2.new (column f * 64) (line f * 64).
Proof.
  unfold snap_writes. rewrite list_elem_of_omap. split.
  - intros [[e c] [Hin Hw]]. unfold snap_write in Hw. simpl in Hw.
    case_bool_decide as Hd; [|done]. destruct c; try done.
    destruct (locate (world s) e Position) as [cp|] eqn:Hcp; [|done]. simpl in Hw.
    destruct (field_position cp) as [v'|] eqn:Hv; [|done]. simpl in Hw.
    destruct (grids s !! this) as [f|] eqn:Hf; [|done]. simpl in Hw.
    injection Hw as <- <-. by exists e, this, f, cp.
  - intros (e & g & f & c & Hin & Hd & Hc & Hv & Hf & ->).
    exists (e, new_GridPosition g). split; [done|].
    unfold snap_write. simpl. rewrite bool_decide_true by done.
    rewrite Hc. simpl. rewrite Hv. simpl. by rewrite Hf.
Qed.

Lemma snap_writes_consistent s v a a' :
  wf s → positions_unshared (world s) →
  (v, a) ∈ snap_writes s → (v, a') ∈ snap_writes s → a = a'.
Proof.
  intros Hwf Hun.
  intros (e & g & f & c & Hin & Hd & Hc & Hv & Hf & ->)%elem_of_snap_writes.
  intros (e' & g' & f' & c' & Hin' & Hd' & Hc' & Hv' & Hf' & ->)%elem_of_snap_writes.
  assert (e = e') as <- by (by eapply positions_unshared_inj).
  unfold queryE, Map.entries in *.
  destruct (registry (world s) !! name GridPosition) as [t|] eqn:Ht;
    [|by apply elem_of_nil in Hin].
  assert (NoDup (Map.keys t)) as Hnd by apply (wf_keys_unique s Hwf _ _ Ht).
  apply (Map_elem_get _ _ _ Hnd) in Hin, Hin'. congruence.
Qed.

Lemma snap_writes_allocated s v a :
  wf s → (v, a) ∈ snap_writes s → (v < length (vectors s))%nat.
Proof.
  intros Hwf (e & g & f & c & Hin & Hd & Hc & Hv & Hf & ->)%elem_of_snap_writes.
  destruct (wf_locate s e Position c Hwf Hc) as [_ Ha].
  destruct c; try done. simpl in *. congruence.
Qed.

Lemma snap_writes_lookup s v a :
  wf s → positions_unshared (world s) → (v, a) ∈ snap_writes s →
  apply_writes (vectors s) (snap_writes s) !! v = Some a.
Proof.
  intros Hwf Hun Hin. apply apply_writes_lookup; [done | | by eapply snap_writes_allocated].
  intros a' Hin'. by eapply snap_writes_consistent.
Qed.

(** C4, as the code has it.  In a well-formed state where every entity
    with a GridPosition and no Dragged has a Position, and no Vector2 is
    the position of two entities, [GridPositionSystem.onFrame] returns
    normally; afterwards every entity with GridPosition (c, l), a
    Position and no Dragged has its Position at (64c, 64l); the Position
    of an entity that carries Dragged is as before; and a second
    [onFrame] changes nothing. *)
Theorem onFrame_snaps (delta : Z) (s : State) :
  wf s → snap_ready (world s) → positions_unshared (world s) →
  ∃ s',
    GridPositionSystem.onFrame delta s = (Normal tt, s') ∧
    world s' = world s ∧ grids s' = grids s ∧
    (∀ e f, grid_of s e = Some f →
            is_Some (locate (world s) e Position) →
            locate (world s) e Dragged = None →
            position_of s' e = Some (Vector2.new (64 * column f) (64 * line f))) ∧
    (∀ e, is_Some (locate (world s) e Dragged) →
          position_of s' e = position_of s e) ∧
    GridPositionSystem.onFrame delta s' = (Normal tt, s').
Proof.
  intros Hwf Hready Hun.
  exists (with_vectors s (apply_writes (vectors s) (snap_writes s))).
  split_and!; [by apply onFrame_writes | done | done | | |].
  - intros e f Hgrid [cp Hcp] Hd. unfold grid_of in Hgrid.
    destruct (locate (world s) e GridPosition) as [cg|] eqn:Hcg; [|done].
    simpl in Hgrid. destruct cg; try done.
    destruct (wf_locate s e Position cp Hwf Hcp) as [[v ->]%constructor_Position _].
    unfold position_of. simpl. rewrite Hcp. simpl.
    apply snap_writes_lookup; [done | done |].
    apply elem_of_snap_writes. exists e, this, f, (new_Position v).
    split_and!; try done.
    + unfold locate, queryE in *.
      destruct (registry (world s) !! name GridPosition); [|done].
      by apply Map_get_Some_elem.
    + f_equal; lia.
  - intros e [d Hd]. unfold position_of. simpl.
    destruct (locate (world s) e Position) as [cp|] eqn:Hcp; [|done]. simpl.
    destruct (field_position cp) as [v|] eqn:Hv; [|done]. simpl.
    apply apply_writes_lookup_other.
    intros [[v' a] [Hv' Hin]]%list_elem_of_fmap. simpl in Hv'. subst v'.
    apply elem_of_snap_writes in Hin
      as (e' & g & f & c & Hin & Hd' & Hc & Hvc & Hf & ->).
    assert (e = e') as <- by (by eapply positions_unshared_inj).
    congruence.
  - rewrite onFrame_writes.
    + rewrite snap_writes_with_vectors. simpl. unfold with_vectors. simpl.
      do 2 f_equal. apply apply_writes_id.
      intros v a Hin. by apply snap_writes_lookup.
    + apply wf_with_vectors; [apply apply_writes_length | done].
    + done.
Qed.

Lemma onFrame_snaps_witness :
  ∃ s',
    GridPositionSystem.onFrame 0 tile_state = (Normal tt, s') ∧
    world s' = world tile_state ∧ grids s' = grids tile_state ∧
    (∀ e f, grid_of tile_state e = Some f →
            is_Some (locate (world tile_state) e Position) →
            locate (world tile_state) e Dragged = None →
            position_of s' e = Some (Vector2.new (64 * column f) (64 * line f))) ∧
    (∀ e, is_Some (locate (world tile_state) e Dragged) →
          position_of s' e = position_of tile_state e) ∧
    GridPositionSystem.onFrame 0 s' = (Normal tt, s').
Proof.
  apply (onFrame_snaps 0 tile_state).
  - apply (bool_decide_unpack _). vm_compute. exact I.
  - apply (bool_decide_unpack _). vm_compute. exact I.
  - apply (bool_decide_unpack _). vm_compute. exact I.
Defined.

(** Where C4 fails as stated.  With an entity that has a GridPosition and
    no Position, the handler throws and the entities after it are not
    snapped; with one Vector2 held by two entities in different cells,
    the first of them ends in the cell of the second. *)
Lemma onFrame_does_not_snap :
  (let s := orphan_grid_state in
   let r := GridPositionSystem.onFrame 0 s in
   r.1 = Throw TypeError ∧
   grid_of s 2 = Some (mkGridFields 2 3) ∧
   is_Some (locate (world s) 2 Position) ∧
   locate (world s) 2 Dragged = None ∧
   position_of r.2 2 = Some (Vector2.new 0 0) ∧
   position_of r.2 2 ≠ Some (Vector2.new (64 * 2) (64 * 3))) ∧
  (let s := shared_vector_state in
   let r := GridPositionSystem.onFrame 0 s in
   r.1 = Normal tt ∧
   grid_of s 1 = Some (mkGridFields 1 1) ∧
   is_Some (locate (world s) 1 Position) ∧
   locate (world s) 1 Dragged = None ∧
   position_of r.2 1 = Some (Vector2.new 128 192) ∧
   position_of r.2 1 ≠ Some (Vector2.new (64 * 1) (64 * 1))).
Proof.
  split;
    (split_and!; [reflexivity | reflexivity | by eexists | reflexivity
                 | reflexivity | by vm_compute]).
Qed.

(** ** Dropping the dragged tiles *)

Lemma set_column_Some g f n s :
  grids s !! g = Some f →
  set_column (Some (new_GridPosition g)) n s =
  (Normal tt, with_grids s (<[g := mkGridFields n (line f)]> (grids s))).
Proof. intros H. unfold_M. by rewrite H. Qed.

Lemma set_line_Some g f n s :
  grids s !! g = Some f →
  set_line (Some (new_GridPosition g)) n s =
  (Normal tt, with_grids s (<[g := mkGridFields (column f) n]> (grids s))).
Proof. intros H. unfold_M. by rewrite H. Qed.

Lemma modify_world_eq f s :
  modify_world f s = (Normal tt, mkState (f (world s)) (vectors s) (grids s) (console s)).
Proof. done. Qed.

Lemma console_log_eq l s :
  console_log l s = (Normal tt, mkState (world s) (vectors s) (grids s) (console s ++ [l])).
Proof. done. Qed.

Lemma constructor_inv_Position s e c :
  wf s → locate (world s) e Position = Some c →
  ∃ v vec, c = new_Position v ∧ vectors s !! v = Some vec.
Proof.
  intros Hwf Hc.
  destruct (wf_locate s e Position c Hwf Hc) as [[v ->]%constructor_Position Hv].
  simpl in Hv. apply lookup_lt_is_Some in Hv as [vec Hvec]. eauto.
Qed.

Lemma constructor_inv_GridPosition s e c :
  wf s → locate (world s) e GridPosition = Some c →
  ∃ g f, c = new_GridPosition g ∧ grids s !! g = Some f.
Proof.
  intros Hwf Hc.
  destruct (wf_locate s e GridPosition c Hwf Hc) as [[g ->]%constructor_GridPosition Hg].
  simpl in Hg. apply lookup_lt_is_Some in Hg as [f Hf]. eauto.
Qed.

Lemma onMouseUp_drops event s player :
  wf s → drop_ready (world s) →
  queryUnique (world s) PlayerProperties = Normal (Some player) →
  TileDragSystem.onMouseUp event s =
  (Normal tt,
   mkState (rescind_all (world s) (Map.keys (queryE (world s) Dragged)))
     (vectors s)
     (apply_writes (grids s) (drop_writes s))
     (console s ++ omap (drop_log s player) (queryE (world s) Dragged))).
Proof.
  intros Hwf Hready Hplayer.
  unfold TileDragSystem.onMouseUp, for_of_queryEN, drop_writes, drop_ready, queryE in *.
  erewrite bind_Normal by apply get_world_eq.
  erewrite bind_Normal by (unfold lift; by rewrite Hplayer).
  erewrite bind_Normal by apply get_world_eq.
  destruct (registry (world s) !! name Dragged) as [t|] eqn:Ht;
    [|destruct s; simpl; by rewrite app_nil_r].
  unfold Map.entries in *.
  match goal with |- context [for_of _ ?b] => set (body := b) end.
  assert (∀ t' w' gs' cs',
            (∀ e T, name T ≠ name Dragged → locate w' e T = locate (world s) e T) →
            length gs' = length (grids s) →
            Forall (λ kv, is_Some (locate (world s) kv.1 Position) ∧
                          is_Some (locate (world s) kv.1 GridPosition)) t' →
            for_of t' body (mkState w' (vectors s) gs' cs') =
            (Normal tt,
             mkState (rescind_all w' (Map.keys t')) (vectors s)
               (apply_writes gs' (omap (drop_write s) t'))
               (cs' ++ omap (drop_log s player) t')))
    as Hloop.
  { clear Hready. induction t' as [|[e d] t' IH]; intros w' gs' cs' Hw' Hlen Hready.
    { simpl. by rewrite app_nil_r. }
    apply Forall_cons in Hready as [[[cp Hcp] [cg Hcg]] Hready]. simpl in Hcp, Hcg.
    destruct (constructor_inv_Position s e cp Hwf Hcp) as (v & vec & -> & Hvec).
    destruct (constructor_inv_GridPosition s e cg Hwf Hcg) as (g & f & -> & Hf).
    assert (g < length gs')%nat as Hg by (rewrite Hlen; by eapply lookup_lt_Some).
    apply lookup_lt_is_Some in Hg as [f0 Hf0].
    csimpl. unfold drop_write at 1, drop_log at 1, position_of. simpl.
    rewrite Hcp, Hcg. simpl. rewrite Hvec. simpl.
    erewrite bind_Normal; cycle 1.
    { subst body. simpl. erewrite bind_Normal by apply get_world_eq. simpl.
      unfold at_index. simpl. rewrite !Hw' by done. rewrite Hcp, Hcg. simpl.
      erewrite bind_Normal; cycle 1.
      { erewrite bind_Normal by apply get_position_Some.
        erewrite bind_Normal by (by apply get_x_Some).
        by apply set_column_Some. }
      erewrite bind_Normal; cycle 1.
      { erewrite bind_Normal by apply get_position_Some.
        erewrite bind_Normal by (by apply get_y_Some).
        apply set_line_Some. simpl. apply list_lookup_insert_eq. by eapply lookup_lt_Some. }
      erewrite bind_Normal by apply modify_world_eq.
      erewrite bind_Normal by reflexivity.
      erewrite bind_Normal; cycle 1.
      { apply get_column_Some. simpl. apply list_lookup_insert_eq.
        rewrite length_insert. by eapply lookup_lt_Some. }
      erewrite bind_Normal; cycle 1.
      { apply get_line_Some. simpl. apply list_lookup_insert_eq.
        rewrite length_insert. by eapply lookup_lt_Some. }
      simpl. rewrite list_insert_insert_eq. apply console_log_eq. }
    simpl. rewrite IH; [| |by rewrite length_insert|done].
    - unfold cell_at. simpl. by rewrite <- app_assoc.
    - intros e' T Hn. rewrite locate_rescind_ne by auto. by apply Hw'. }
  replace s with (mkState (world s) (vectors s) (grids s) (console s)) at 1
    by (by destruct s).
  by apply Hloop.
Qed.






Lemma locate_queryE w e T c : locate w e T = Some c → (e, c) ∈ queryE w T.
Proof.
  unfold locate, queryE, Map.entries.
  destruct (registry w !! name T); simpl; [|done]. apply Map_get_Some_elem.
Qed.





(** ** Picking tiles up *)



Lemma flag_all_locate_notin w es e :
  e ∉ es → locate (flag_all w es) e Dragged = locate w e Dragged.
Proof.
  unfold flag_all. induction es as [|e0 es IH] using rev_ind; intros Hin; [done|].
  rewrite foldl_app. simpl. apply not_elem_of_app in Hin as [Hin Hne].
  rewrite locate_register_ne; [by apply IH|].
  left. intros ->. apply Hne, list_elem_of_here.
Qed.

Lemma hit_true s event e :
  hit s event e = true ↔
  ∃ origin, screen_of s e = Some origin ∧ pointer_inside event origin.
Proof.
  unfold hit, pointer_inside, Rectangle.contains, Rectangle.from.
  destruct (screen_of s e) as [origin|]; simpl.
  - rewrite !andb_true_iff, !Z.ltb_lt, !Z.gtb_lt. split.
    + intros [[[? ?] ?] ?]. exists origin. split; [done | lia].
    + intros (o & [= <-] & ?). lia.
  - split; [done | by intros (? & ? & _)].
Qed.

Lemma elem_of_keys_queryE w e T : e ∈ Map.keys (queryE w T) ↔ is_Some (locate w e T).
Proof.
  unfold locate, queryE, Map.entries.
  destruct (registry w !! name T) as [t|]; simpl.
  - rewrite <- not_eq_None_Some, Map_get_None. split; [auto | apply dec_stable].
  - split; [by intros ?%elem_of_nil | by intros [? ?]].
Qed.

Lemma elem_of_hits s event e : e ∈ hits s event ↔ under_pointer s event e.
Proof.
  unfold hits, under_pointer.
  by rewrite list_elem_of_filter, hit_true, elem_of_keys_queryE, (comm and).
Qed.

Lemma frames_get w p :
  keys_unique w →
  Map.get (Map.of_entries (queryE w DisplayFrame)) p = locate w p DisplayFrame.
Proof.
  intros Hw. unfold locate, queryE, Map.entries.
  destruct (registry w !! name DisplayFrame) as [t|] eqn:Ht; simpl; [|done].
  rewrite Map_of_entries_NoDup; [done | apply (Hw _ _ Ht)].
Qed.

Lemma screenPosition_screen_of s s0 e origin :
  keys_unique (world s) → vectors s0 = vectors s →
  screen_of s e = Some origin →
  TileDragSystem.screenPosition (Map.of_entries (queryE (world s) DisplayFrame))
    (locate (world s) e Position) (locate (world s) e DisplayPlane) s0 =
  (Normal origin, s0).
Proof.
  intros Hw Hvs. unfold screen_of, position_of, frame_of, TileDragSystem.screenPosition.
  destruct (locate (world s) e Position) as [cp|]; [|done]. simpl.
  destruct (field_position cp) as [v|] eqn:Hv; [|done]. simpl.
  destruct (vectors s !! v) as [p|] eqn:Hp; [|done]. simpl.
  rewrite <- Hvs in Hp.
  destruct (locate (world s) e DisplayPlane) as [cpl|].
  - destruct (field_plane cpl) as [pl|]; [|done]. simpl.
    rewrite frames_get by done.
    destruct (locate (world s) pl DisplayFrame) as [cf|]; [|done]. simpl.
    destruct (field_innerPosition cf) as [fv|]; [|done]. simpl.
    destruct (vectors s !! fv) as [f|] eqn:Hf; [|done]. simpl.
    rewrite <- Hvs in Hf. intros [= <-].
    erewrite bind_Normal by apply get_position_Some. rewrite Hv.
    erewrite bind_Normal by (by apply get_x_Some).
    erewrite bind_Normal by (by apply get_x_Some).
    erewrite bind_Normal by apply get_position_Some. rewrite Hv.
    erewrite bind_Normal by (by apply get_y_Some).
    erewrite bind_Normal by (by apply get_y_Some).
    done.
  - intros [= <-].
    erewrite bind_Normal by apply get_position_Some. rewrite Hv.
    erewrite bind_Normal by (by apply get_x_Some).
    erewrite bind_Normal by (by apply get_y_Some).
    by destruct p.
Qed.

Lemma onMouseDown_flags_hits event s :
  keys_unique (world s) → hit_ready s →
  TileDragSystem.onMouseDown event s =
  (Normal tt, with_world s (flag_all (world s) (hits s event))).
Proof.
  intros Hw Hready.
  unfold TileDragSystem.onMouseDown, for_of_queryEN, hits, hit_ready, queryE in *.
  erewrite bind_Normal by apply get_world_eq.
  erewrite bind_Normal by apply get_world_eq.
  fold (queryE (world s) DisplayFrame).
  destruct (registry (world s) !! name Draggable) as [t|] eqn:Ht; [|by destruct s].
  unfold Map.entries in *.
  match goal with |- context [for_of _ ?b] => set (body := b) end.
  assert (∀ t' w',
            (∀ e T, name T ≠ name Dragged → locate w' e T = locate (world s) e T) →
            Forall (λ kv, is_Some (screen_of s kv.1)) t' →
            for_of t' body (with_world s w') =
            (Normal tt,
             with_world s
               (flag_all w' (filter (λ e, hit s event e = true) (Map.keys t')))))
    as Hloop.
  { clear Hready. induction t' as [|[e d] t' IH]; intros w' Hw' Hready; [done|].
    apply Forall_cons in Hready as [[origin Ho] Hready]. simpl in Ho.
    assert (hit s event e =
            Rectangle.contains (Rectangle.from origin (Vector2.new 64 64))
              (Vector2.new (clientX event) (clientY event))) as Hhit
      by (unfold hit; by rewrite Ho).
    assert (body (e, d) (with_world s w') =
            (Normal tt,
             with_world s (if hit s event e then register w' e new_Dragged else w')))
      as Hbody.
    { subst body. simpl. erewrite bind_Normal by apply get_world_eq. simpl.
      unfold at_index. simpl. rewrite !Hw' by done.
      erewrite bind_Normal by (by apply (screenPosition_screen_of s)).
      rewrite Hhit. by destruct (Rectangle.contains _ _). }
    csimpl. rewrite filter_cons.
    erewrite bind_Normal by exact Hbody.
    destruct (hit s event e) eqn:Hc.
    - rewrite decide_True by done. simpl.
      apply (IH (register w' e new_Dragged)); [|done].
      intros e' T Hn. rewrite locate_register_ne by auto. by apply Hw'.
    - rewrite decide_False by done. simpl. by apply IH. }
  replace s with (with_world s (world s)) at 1 by (by destruct s).
  by apply Hloop.
Qed.




(** ** Screen positions *)



(** ** What the handlers keep *)

Section Keeps.
Context (P : State → Prop) `{!Stable P}.

Lemma keeps_bind {A B} (m : M A) (f : A → M B) :
  keeps P m → (∀ a, keeps P (f a)) → keeps P (m ≫= f).
Proof.
  intros Hm Hf s Hs. unfold mbind, M_bind. specialize (Hm s Hs).
  destruct (m s) as [[a|err] s']; simpl in *; [|done].
  by apply Hf.
Qed.

Lemma keeps_pure {A} (m : M A) : (∀ s, (m s).2 = s) → keeps P m.
Proof. intros H s Hs. by rewrite H. Qed.

Lemma keeps_member {A} (o : option A) : keeps P (member o).
Proof. destruct o; by intros s Hs. Qed.

Lemma keeps_Vector2_read v : keeps P (Vector2_read v).
Proof. intros s Hs. unfold Vector2_read. by destruct (vectors s !! v). Qed.

Lemma keeps_GridFields_read g : keeps P (GridFields_read g).
Proof. intros s Hs. unfold GridFields_read. by destruct (grids s !! g). Qed.

Lemma keeps_Vector2_write v f : keeps P (Vector2_write v f).
Proof.
  intros s Hs. unfold Vector2_write.
  destruct (vectors s !! v) as [vec|] eqn:Hv; [|done].
  apply (stable_vectors s v (f vec)); [by eapply lookup_lt_Some | done].
Qed.

Lemma keeps_GridFields_write g f : keeps P (GridFields_write g f).
Proof.
  intros s Hs. unfold GridFields_write.
  destruct (grids s !! g) as [fields|] eqn:Hg; [|done].
  apply (stable_grids s g (f fields)); [by eapply lookup_lt_Some | done].
Qed.

Lemma keeps_console_log l : keeps P (console_log l).
Proof. intros s Hs. by apply stable_console. Qed.

Lemma keeps_flag e : keeps P (modify_world (λ w, register w e new_Dragged)).
Proof. intros s Hs. by apply stable_flag. Qed.

Lemma keeps_rescind e n : keeps P (modify_world (λ w, rescind w e n)).
Proof. intros s Hs. by apply stable_rescind. Qed.

Lemma keeps_for_of {X} (xs : list X) (body : X → M unit) :
  (∀ x, keeps P (body x)) → keeps P (for_of xs body).
Proof.
  intros Hbody. induction xs as [|x xs IH]; simpl; [by intros s Hs|].
  apply keeps_bind; [apply Hbody | by intros _].
Qed.
End Keeps.

(** The reads and writes of fields, down to the store. *)
Ltac unfold_fields :=
  unfold get_position, get_innerPosition, get_x, get_y, set_x, set_y,
    get_column, get_line, set_column, set_line, GridPosition_this.

(** Rule by rule through a handler. *)
Ltac keeps :=
  repeat match goal with
  | |- keeps _ (member _) => apply keeps_member
  | |- keeps _ (Vector2_read _) => apply keeps_Vector2_read
  | |- keeps _ (Vector2_write _ _) => apply keeps_Vector2_write; assumption
  | |- keeps _ (GridFields_read _) => apply keeps_GridFields_read
  | |- keeps _ (GridFields_write _ _) => apply keeps_GridFields_write; assumption
  | |- keeps _ (console_log _) => apply keeps_console_log; assumption
  | |- keeps _ (modify_world (λ w, register w _ new_Dragged)) =>
      apply keeps_flag; assumption
  | |- keeps _ (modify_world (λ w, rescind w _ _)) => apply keeps_rescind; assumption
  | |- keeps _ (for_of _ _) => apply keeps_for_of; intros
  | |- keeps _ (_ ≫= _) => apply keeps_bind; [|intros]
  | |- keeps _ (match ?x with _ => _ end) => destruct x
  | |- keeps _ (if ?b then _ else _) => destruct b
  | |- keeps _ _ => apply keeps_pure; reflexivity
  end.

Section Handlers.
Context (P : State → Prop) `{!Stable P}.

Lemma keeps_onFrame delta : keeps P (GridPositionSystem.onFrame delta).
Proof. unfold GridPositionSystem.onFrame, for_of_queryN. unfold_fields. keeps. Qed.

Lemma keeps_onScroll event : keeps P (ScrollDragSystem.onMouseMove event).
Proof. unfold ScrollDragSystem.onMouseMove. unfold_fields. keeps. Qed.

Lemma keeps_onMouseMove event : keeps P (TileDragSystem.onMouseMove event).
Proof. unfold TileDragSystem.onMouseMove, for_of_queryN. unfold_fields. keeps. Qed.

Lemma keeps_onMouseDown event : keeps P (TileDragSystem.onMouseDown event).
Proof.
  unfold TileDragSystem.onMouseDown, for_of_queryEN, TileDragSystem.screenPosition.
  unfold_fields. keeps.
Qed.

Lemma keeps_onMouseUp event : keeps P (TileDragSystem.onMouseUp event).
Proof. unfold TileDragSystem.onMouseUp, for_of_queryEN. unfold_fields. keeps. Qed.
End Handlers.

#[global] Instance Stable_lastId (n : Z) : Stable (λ s, lastId (world s) = n).
Proof.
  split; simpl; try done.
  - intros s e. by rewrite lastId_register.
  - intros s e m. by rewrite lastId_rescind.
Qed.

#[global] Instance Stable_keys_unique : Stable (λ s, keys_unique (world s)).
Proof.
  split; simpl; try done.
  - intros s e. apply keys_unique_register.
  - intros s e n. apply keys_unique_rescind.
Qed.

(** ** Entity ids *)

Lemma increment_exact x :
  -9007199254740992 ≤ x < 9007199254740992 → increment x = x + 1.
Proof. intros Hx. unfold increment. rewrite bool_decide_true; [done | lia]. Qed.

Lemma increment_le x : x ≤ increment x.
Proof. unfold increment. repeat case_match; lia. Qed.

Lemma increment_stuck : increment 9007199254740992 = 9007199254740992.
Proof. reflexivity. Qed.

Lemma lastId_entity w cs :
  (entity w cs).1 = increment (lastId w) ∧
  lastId (entity w cs).2 = increment (lastId w).
Proof. unfold entity. simpl. split; [done|]. by rewrite entity_fold. Qed.

Lemma step_lastId s op :
  match (step s op).2 with
  | Some id => id = increment (lastId (world s)) ∧ lastId (world (step s op).1) = id
  | None => lastId (world (step s op).1) = lastId (world s)
  end.
Proof.
  pose (P := λ s' : State, lastId (world s') = lastId (world s)).
  destruct op; simpl.
  - apply lastId_register.
  - apply lastId_rescind.
  - split; [done | by rewrite entity_fold].
  - by apply (keeps_onFrame P).
  - by apply (keeps_onScroll P).
  - by apply (keeps_onMouseDown P).
  - by apply (keeps_onMouseMove P).
  - by apply (keeps_onMouseUp P).
Qed.

(** As long as [lastId] stays within 2^53 every id is the one before it
    plus one. *)
Lemma run_ids s ops :
  0 ≤ lastId (world s) →
  lastId (world s) + Z.of_nat (length ops) ≤ 9007199254740992 →
  lastId (world s) ≤ lastId (world (run s ops).1)
    ≤ lastId (world s) + Z.of_nat (length ops) ∧
  Forall (λ id, lastId (world s) < id ≤ lastId (world (run s ops).1)) (run s ops).2 ∧
  StronglySorted Z.lt (run s ops).2.
Proof.
  revert s. induction ops as [|op ops IH]; intros s Hpos Hbound.
  - simpl. split_and!; [lia | lia | constructor | constructor].
  - cbn [run length] in *.
    pose proof (step_lastId s op) as Hstep.
    destruct (step s op) as [s' r]. simpl in Hstep.
    assert (lastId (world s) ≤ lastId (world s') ≤ lastId (world s) + 1) as Hs'.
    { destruct r as [id|].
      - destruct Hstep as [-> ->]. rewrite increment_exact; lia.
      - lia. }
    destruct (IH s') as (Hle & Hall & Hsorted); [lia | lia |].
    destruct (run s' ops) as [s'' ids]. simpl in *.
    destruct r as [id|].
    + destruct Hstep as [-> Hid]. rewrite increment_exact in * by lia.
      split_and!; [lia | lia | |].
      * constructor; [lia|]. eapply Forall_impl; [exact Hall|]. simpl. lia.
      * constructor; [done|]. eapply Forall_impl; [exact Hall|]. simpl. lia.
    + rewrite Hstep in *. split_and!; [lia | lia | done | done].
Qed.

Lemma StronglySorted_lt_NoDup (l : list Z) : StronglySorted Z.lt l → NoDup l.
Proof.
  induction 1 as [|x l Hl IH Hall]; constructor; [|done].
  intros Hin. rewrite Forall_forall in Hall. specialize (Hall x Hin). lia.
Qed.

Lemma run_app s ops1 ops2 :
  run s (ops1 ++ ops2) =
  ((run (run s ops1).1 ops2).1, (run s ops1).2 ++ (run (run s ops1).1 ops2).2).
Proof.
  revert s. induction ops1 as [|op ops1 IH]; intros s.
  - cbn [app run fst snd]. by destruct (run s ops2).
  - cbn [app run]. destruct (step s op) as [s' r]. rewrite IH.
    destruct (run s' ops1) as [s'' ids]. cbn [fst snd]. by destruct r.
Qed.

(** [n] calls of [entity] in a row, while [lastId] stays within 2^53. *)
Lemma run_entities (n : nat) s components :
  0 ≤ lastId (world s) →
  lastId (world s) + Z.of_nat n ≤ 9007199254740992 →
  lastId (world (run s (replicate n (Op_entity components))).1) =
    lastId (world s) + Z.of_nat n ∧
  (n ≠ 0%nat →
   lastId (world s) + Z.of_nat n ∈ (run s (replicate n (Op_entity components))).2).
Proof.
  revert s. induction n as [|n IH]; intros s Hpos Hbound.
  - cbn [replicate run fst]. split; [lia | done].
  - cbn [replicate run].
    pose proof (step_lastId s (Op_entity components)) as Hstep.
    destruct (step s (Op_entity components)) as [s' r] eqn:Hs.
    assert (r = Some (lastId (world s) + 1) ∧
            lastId (world s') = lastId (world s) + 1) as [-> Hs'].
    { unfold step in Hs. destruct (entity (world s) components) as [id w'].
      injection Hs as <- <-. cbn [snd fst] in Hstep. destruct Hstep as [-> ->].
      rewrite increment_exact by lia. done. }
    destruct (IH s') as [Hlast Hin]; [lia | lia |].
    destruct (run s' (replicate n (Op_entity components))) as [s'' ids].
    cbn [fst snd] in *. split; [lia|]. intros _.
    destruct n as [|n].
    + replace (lastId (world s) + Z.of_nat 1) with (lastId (world s) + 1) by lia.
      apply list_elem_of_here.
    + apply list_elem_of_further.
      replace (lastId (world s) + Z.of_nat (S (S n)))
        with (lastId (world s') + Z.of_nat (S n)) by lia.
      by apply Hin.
Qed.

Lemma run_repeats (n : nat) :
  Z.of_nat n = 9007199254740992 →
  ¬ NoDup (run (mkState new_World [] [] [])
             (replicate n (Op_entity []) ++ [Op_entity []])).2.
Proof.
  intros Hn. rewrite run_app. cbn [snd].
  destruct (run_entities n (mkState new_World [] [] []) []) as [Hlast Hin];
    [done | simpl; lia |].
  simpl in Hlast, Hin. rewrite Hn in Hlast, Hin.
  set (r := run (mkState new_World [] [] []) (replicate n (Op_entity []))) in *.
  assert ((run r.1 [Op_entity []]).2 = [9007199254740992]) as ->.
  { cbn [run]. pose proof (step_lastId r.1 (Op_entity [])) as Hstep.
    destruct (step r.1 (Op_entity [])) as [s' [id|]] eqn:Hs.
    - cbn [snd] in *. destruct Hstep as [-> _]. by rewrite Hlast.
    - unfold step in Hs. destruct (entity (world r.1) []). discriminate. }
  intros [_ [Hdisjoint _]]%NoDup_app.
  apply (Hdisjoint 9007199254740992); [|apply list_elem_of_here].
  apply Hin. intros ->. discriminate.
Qed.

(** C8, as the code has it.  Over at most 2^53 calls made on a World from
    its initial state, the ids that [entity] returns are strictly
    increasing, hence never repeated, and never 0.  No call decreases
    [lastId]; each [entity] returns [++lastId] and leaves it in [lastId],
    and this is [lastId + 1] while [lastId] is below 2^53. *)
Theorem entity_ids_fresh (vs : list Vector2) (gs : list GridFields)
    (cs : list LogLine) (ops : list Op) :
  Z.of_nat (length ops) ≤ 9007199254740992 →
  let ids := (run (mkState new_World vs gs cs) ops).2 in
  StronglySorted Z.lt ids ∧
  NoDup ids ∧
  (0 ∉ ids) ∧
  (∀ s op, lastId (world s) ≤ lastId (world (step s op).1)) ∧
  (∀ s components,
     (step s (Op_entity components)).2 = Some (increment (lastId (world s))) ∧
     lastId (world (step s (Op_entity components)).1) = increment (lastId (world s))) ∧
  (∀ x, -9007199254740992 ≤ x < 9007199254740992 → increment x = x + 1).
Proof.
  intros Hbound ids.
  destruct (run_ids (mkState new_World vs gs cs) ops) as (_ & Hall & Hsorted);
    [done | simpl; lia |].
  fold ids in Hall, Hsorted. simpl in Hall.
  split_and!.
  - done.
  - by apply StronglySorted_lt_NoDup.
  - intros Hin. rewrite Forall_forall in Hall. specialize (Hall 0 Hin). lia.
  - intros s op. pose proof (step_lastId s op) as H.
    destruct ((step s op).2) as [id|]; [|lia].
    destruct H as [-> ->]. apply increment_le.
  - intros s components. simpl. split; [done | by rewrite entity_fold].
  - apply increment_exact.
Qed.

Lemma entity_ids_fresh_witness :
  let ops := [Op_entity [new_Draggable]; Op_rescind 1 "Draggable";
              Op_entity []; Op_entity [new_Dragged]] in
  let ids := (run (mkState new_World [] [] []) ops).2 in
  ids = [1; 2; 3] ∧ StronglySorted Z.lt ids ∧ NoDup ids ∧ 0 ∉ ids.
Proof.
  cbv zeta. split; [vm_compute; reflexivity|].
  destruct (entity_ids_fresh [] [] []
              [Op_entity [new_Draggable]; Op_rescind 1 "Draggable";
               Op_entity []; Op_entity [new_Dragged]])
    as (Hsorted & Hnodup & Hzero & _).
  - simpl. lia.
  - split_and!; [exact Hsorted | exact Hnodup | exact Hzero].
Defined.

(** Where C8 fails as stated.  [lastId] is a double: at 2^53 the increment
    is lost to rounding, so a World whose [lastId] has reached 2^53 returns
    2^53 from every further [entity]; and the World reaches it from its
    initial state, by 2^53 calls of [entity], after which one more call
    repeats the last id. *)
Lemma entity_ids_repeat :
  (let w := mkWorld ∅ 9007199254740992 in
   (entity w []).1 = 9007199254740992 ∧
   (entity (entity w []).2 []).1 = 9007199254740992) ∧
  ¬ NoDup (run (mkState new_World [] [] [])
             (replicate (Z.to_nat 9007199254740992) (Op_entity []) ++
              [Op_entity []])).2.
Proof.
  split.
  - split; vm_compute; reflexivity.
  - apply (run_repeats (Z.to_nat 9007199254740992)).
    apply Z2Nat.id. discriminate.
Qed.

(** ** Every call keeps the state well formed *)

Lemma Map_set_elem (m : Table) k v kv : kv ∈ Map.set m k v → kv = (k, v) ∨ kv ∈ m.
Proof.
  induction m as [|[k0 v0] m IH]; simpl.
  - intros ->%list_elem_of_singleton. by left.
  - destruct (decide (k0 = k)) as [->|Hne].
    + intros [->|Hin]%elem_of_cons; [by left | right; by apply list_elem_of_further].
    + intros [->|Hin]%elem_of_cons; [right; apply list_elem_of_here|].
      destruct (IH Hin) as [->|Hm]; [by left | right; by apply list_elem_of_further].
Qed.

Lemma wf_same_store s s' :
  world s' = world s → length (vectors s') = length (vectors s) →
  length (grids s') = length (grids s) → wf s → wf s'.
Proof.
  intros Hworld Hvs Hgs Hwf. unfold wf in *. rewrite Hworld.
  eapply map_Forall_impl; [exact Hwf|]. simpl.
  intros n t [Hnd Hall]. split; [done|].
  eapply Forall_impl; [exact Hall|]. simpl.
  intros [e c] [? Ha]. split; [done|].
  destruct c; simpl in *; try done; by rewrite ?Hvs, ?Hgs.
Qed.

Lemma wf_register s e c :
  wf s → allocated s c → wf (with_world s (register (world s) e c)).
Proof.
  intros Hwf Hc. unfold wf. simpl. rewrite registry_register.
  apply map_Forall_insert_2.
  - assert (NoDup (Map.keys (default [] (registry (world s) !! name (constructor c)))) ∧
            Forall (λ kv, name (constructor kv.2) = name (constructor c) ∧
                          allocated s kv.2)
              (default [] (registry (world s) !! name (constructor c)))) as [Hnd Hall].
    { destruct (registry (world s) !! name (constructor c)) as [t|] eqn:Ht; simpl.
      - apply (Hwf _ _ Ht).
      - split; constructor. }
    split; [by apply Map_set_NoDup|].
    apply Forall_forall. intros kv [->|Hin]%Map_set_elem.
    + split; [done | by destruct c].
    + rewrite Forall_forall in Hall. destruct (Hall kv Hin) as [? Ha].
      split; [done | by destruct (kv.2)].
  - eapply map_Forall_impl; [exact Hwf|]. simpl.
    intros n t [Hnd Hall]. split; [done|].
    eapply Forall_impl; [exact Hall|]. simpl.
    intros [e' c'] [? Ha]. split; [done | by destruct c'].
Qed.

Lemma wf_rescind s e n : wf s → wf (with_world s (rescind (world s) e n)).
Proof.
  intros Hwf. unfold wf. simpl. rewrite registry_rescind.
  apply map_Forall_insert_2.
  - destruct (registry (world s) !! n) as [t|] eqn:Ht; simpl; [|split; constructor].
    destruct (Hwf _ _ Ht) as [Hnd Hall].
    split; [by apply Map_delete_NoDup|].
    unfold Map.delete. apply Forall_forall. intros kv [_ Hin]%list_elem_of_filter.
    rewrite Forall_forall in Hall. destruct (Hall kv Hin) as [? Ha].
    split; [done | by destruct (kv.2)].
  - eapply map_Forall_impl; [exact Hwf|]. simpl.
    intros n' t [Hnd Hall]. split; [done|].
    eapply Forall_impl; [exact Hall|]. simpl.
    intros [e' c'] [? Ha]. split; [done | by destruct c'].
Qed.

Lemma wf_entity s cs :
  wf s → Forall (allocated s) cs → wf (with_world s (entity (world s) cs).2).
Proof.
  unfold entity. simpl. intros Hwf Hcs.
  assert (wf (with_world s (mkWorld (registry (world s)) (increment (lastId (world s))))))
    as Hwf' by done.
  revert Hwf'.
  generalize (mkWorld (registry (world s)) (increment (lastId (world s)))) as w'.
  generalize (increment (lastId (world s))) as e.
  induction Hcs as [|c cs Hc Hcs IH]; intros e w' Hw'; simpl; [done|].
  apply IH. apply (wf_register (with_world s w') e c Hw'). by destruct c.
Qed.

#[global] Instance Stable_wf : Stable wf.
Proof.
  split.
  - intros s v vec Hv Hwf.
    apply (wf_same_store s); simpl; [done | apply length_insert | done | done].
  - intros s g fields Hg Hwf.
    apply (wf_same_store s); simpl; [done | done | apply length_insert | done].
  - intros s l Hwf. by apply (wf_same_store s).
  - intros s e Hwf. by apply (wf_register s e new_Dragged).
  - intros s e n Hwf. by apply wf_rescind.
Qed.

#[global] Instance Stable_store (n k : nat) :
  Stable (λ s, length (vectors s) = n ∧ length (grids s) = k).
Proof.
  split; simpl; try done.
  - intros s v vec _ [<- <-]. by rewrite length_insert.
  - intros s g fields _ [<- <-]. by rewrite length_insert.
Qed.

Lemma wf_step s op : wf s → op_allocated s op → wf (step s op).1.
Proof.
  intros Hwf Hop. destruct op.
  - by apply wf_register.
  - by apply wf_rescind.
  - pose proof (wf_entity s components Hwf Hop) as H. revert H.
    unfold step. by destruct (entity (world s) components) as [id w].
  - by apply (keeps_onFrame wf).
  - by apply (keeps_onScroll wf).
  - by apply (keeps_onMouseDown wf).
  - by apply (keeps_onMouseMove wf).
  - by apply (keeps_onMouseUp wf).
Qed.

Lemma step_store s op :
  length (vectors (step s op).1) = length (vectors s) ∧
  length (grids (step s op).1) = length (grids s).
Proof.
  pose (P := λ s' : State, length (vectors s') = length (vectors s) ∧
                           length (grids s') = length (grids s)).
  destruct op; simpl; try done.
  - by apply (keeps_onFrame P).
  - by apply (keeps_onScroll P).
  - by apply (keeps_onMouseDown P).
  - by apply (keeps_onMouseMove P).
  - by apply (keeps_onMouseUp P).
Qed.

Lemma op_allocated_store s s' op :
  length (vectors s') = length (vectors s) → length (grids s') = length (grids s) →
  op_allocated s op → op_allocated s' op.
Proof.
  intros Hvs Hgs.
  assert (∀ c, allocated s c → allocated s' c) as Hc.
  { intros c. destruct c; simpl; try done; by rewrite ?Hvs, ?Hgs. }
  destruct op; simpl; try done; [apply Hc|].
  intros H. eapply Forall_impl; [exact H | exact Hc].
Qed.

(** From a well-formed state, calls that bring in components of the
    store lead to well-formed states only. *)
Lemma wf_run s ops : wf s → Forall (op_allocated s) ops → wf (run s ops).1.
Proof.
  revert s. induction ops as [|op ops IH]; intros s Hwf Hops; simpl; [done|].
  apply Forall_cons in Hops as [Hop Hops].
  pose proof (wf_step s op Hwf Hop) as Hwf'.
  destruct (step_store s op) as [Hvs Hgs].
  destruct (step s op) as [s' r]. simpl in *.
  specialize (IH s' Hwf').
  destruct (run s' ops) as [s'' ids]. simpl in *. apply IH.
  eapply Forall_impl; [exact Hops|]. intros op'. by apply op_allocated_store.
Qed.

Lemma keys_unique_step s op :
  keys_unique (world s) → keys_unique (world (step s op).1).
Proof.
  pose (P := λ s' : State, keys_unique (world s')).
  intros Hs. destruct op.
  - by apply keys_unique_register.
  - by apply keys_unique_rescind.
  - pose proof (keys_unique_entity (world s) components Hs) as H. revert H.
    unfold step. by destruct (entity (world s) components) as [id w].
  - by apply (keeps_onFrame P).
  - by apply (keeps_onScroll P).
  - by apply (keeps_onMouseDown P).
  - by apply (keeps_onMouseMove P).
  - by apply (keeps_onMouseUp P).
Qed.

(** Every World that calls build from [new World()] has one entry per
    key in each of its tables. *)
Lemma keys_unique_run vs gs cs ops :
  keys_unique (world (run (mkState new_World vs gs cs) ops).1).
Proof.
  assert (∀ s, keys_unique (world s) → keys_unique (world (run s ops).1)) as H.
  { induction ops as [|op ops IH]; intros s Hs; simpl; [done|].
    pose proof (keys_unique_step s op Hs) as Hs'.
    destruct (step s op) as [s' r]. specialize (IH s' Hs').
    by destruct (run s' ops). }
  apply H, keys_unique_new_World.
Qed.

Lemma wf_initial vs gs cs : wf (mkState new_World vs gs cs).
Proof. apply map_Forall_empty. Qed.

(** ** The World, further *)

Lemma Class_name_inj (T U : Class) : name T = name U → T = U.
Proof. destruct T, U. simpl. by intros ->. Qed.

Lemma locate_lastId (r : gmap string Table) (n n' : Z) e T :
  locate (mkWorld r n) e T = locate (mkWorld r n') e T.
Proof. done. Qed.

Lemma locate_register w e c e' T :
  locate (register w e c) e' T =
  if decide (e' = e ∧ constructor c = T) then Some c else locate w e' T.
Proof.
  case_decide as H.
  - destruct H as [-> <-]. apply locate_register_eq.
  - apply locate_register_ne.
    destruct (decide (e = e')) as [->|]; [right | by left].
    intros Hn. apply H. split; [done|]. by apply Class_name_inj.
Qed.

Lemma registers_locate w e0 cs e T :
  locate (foldl (λ w c, register w e0 c) w cs) e T =
  if decide (e = e0) then
    match last (filter (λ c, constructor c = T) cs) with
    | Some c => Some c
    | None => locate w e0 T
    end
  else locate w e T.
Proof.
  revert w. induction cs as [|c cs IH]; intros w; simpl.
  - case_decide; by subst.
  - rewrite IH. rewrite filter_cons. case_decide as He; [subst e|].
    + destruct (decide (constructor c = T)) as [Hc|Hc].
      * rewrite last_cons. destruct (last (filter _ cs)); [done|].
        rewrite locate_register. by rewrite decide_True.
      * destruct (last (filter _ cs)); [done|].
        rewrite locate_register. rewrite decide_False; [done | by intros [_ ?]].
    + rewrite locate_register. rewrite decide_False; [done | by intros [? _]].
Qed.

(** X1. [entity(components)] returns [++lastId], which is [lastId + 1]
    while that stays within 2^53, and leaves it in [lastId]; afterwards
    [locate] of the new id answers, for each class, the last component of
    that class in the array, or what the World held under that id when
    the array has none, and for any other id what it answered before. *)
Theorem entity_locate (w : World) (cs : list Component) (e : EntityId) (T : Class) :
  let id := (entity w cs).1 in
  let w' := (entity w cs).2 in
  id = increment (lastId w) ∧
  (Z.abs (lastId w + 1) ≤ 9007199254740992 → id = lastId w + 1) ∧
  lastId w' = id ∧
  locate w' e T =
    if decide (e = id) then
      match last (filter (λ c, constructor c = T) cs) with
      | Some c => Some c
      | None => locate w id T
      end
    else locate w e T.
Proof.
  intros id w'. split_and!; [done | | apply lastId_entity |].
  - intros Hx. subst id. unfold entity, increment. simpl.
    by rewrite bool_decide_true.
  - subst id w'. unfold entity. simpl. rewrite registers_locate.
    case_decide; [|done]. by destruct (last _).
Qed.

Lemma entity_locate_witness :
  let w := (entity new_World [new_Draggable]).2 in
  (entity w [new_Label "H"; new_Label "E"]).1 = 2 ∧
  locate (entity w [new_Label "H"; new_Label "E"]).2 2 Label = Some (new_Label "E").
Proof.
  cbv zeta.
  destruct (entity_locate (entity new_World [new_Draggable]).2
              [new_Label "H"; new_Label "E"] 2 Label) as (_ & Hid & _ & Hlocate).
  split.
  - rewrite Hid; [vm_compute; reflexivity | vm_compute; discriminate].
  - rewrite Hlocate. vm_compute. reflexivity.
Defined.

Lemma Map_set_head (t : Table) e c e0 c0 :
  head t = Some (e0, c0) →
  head (Map.set t e c) = Some (e0, if decide (e0 = e) then c else c0).
Proof.
  destruct t as [|[k v] t]; simpl; [done|]. intros [= -> ->].
  by destruct (decide (e0 = e)) as [->|].
Qed.

(** X2. After [register(e, c)], [queryUnique] of the class of [c] returns
    a component and does not throw: the component of the oldest entry of
    the table, which is [c] when the table was missing or empty or when
    its oldest entry belongs to [e]. *)
Theorem queryUnique_after_register (w : World) (e : EntityId) (c : Component) :
  queryUnique (register w e c) (constructor c) =
  Normal (Some match head (queryE w (constructor c)) with
               | Some (e0, c0) => if decide (e0 = e) then c else c0
               | None => c
               end).
Proof.
  unfold queryUnique, queryE, Map.entries, Map.values.
  rewrite registry_register, lookup_insert_eq.
  destruct (registry w !! name (constructor c)) as [[|[e0 c0] t]|]; simpl; try done.
  destruct (decide (e0 = e)); simpl; by f_equal.
Qed.

(** X3. In a World with one entry per key, [query(T)] yields the
    components that [locate(e, T)] answers for some entity [e], and no
    others. *)
Theorem query_locate (w : World) (T : Class) (c : Component) :
  keys_unique w →
  c ∈ query w T ↔ ∃ e, locate w e T = Some c.
Proof.
  intros Hw. unfold query, locate, Map.values.
  destruct (registry w !! name T) as [t|] eqn:Ht; simpl.
  - rewrite list_elem_of_fmap. split.
    + intros [[e c'] [-> Hin]]. exists e. apply Map_elem_get; [apply (Hw _ _ Ht) | done].
    + intros [e He]. exists (e, c). split; [done | by apply Map_get_Some_elem].
  - split; [by intros ?%elem_of_nil | by intros [? ?]].
Qed.

Lemma query_locate_witness :
  new_Position 1%nat ∈ query tile_world Position ↔
  ∃ e, locate tile_world e Position = Some (new_Position 1%nat).
Proof.
  apply (query_locate tile_world Position (new_Position 1%nat)).
  apply (bool_decide_unpack _). vm_compute. exact I.
Defined.

(** X4. Registering a component for an entity that has none of its class
    and rescinding it again gives the World that the rescission alone
    gives, which is the World before when the table of the class
    exists. *)
Theorem register_rescind (w : World) (e : EntityId) (c : Component) :
  locate w e (constructor c) = None →
  rescind (register w e c) e (name (constructor c)) = rescind w e (name (constructor c)) ∧
  (is_Some (registry w !! name (constructor c)) →
   rescind (register w e c) e (name (constructor c)) = w).
Proof.
  intros Hloc.
  assert (rescind (register w e c) e (name (constructor c)) =
          rescind w e (name (constructor c))) as Heq.
  { apply World_eq; [|by rewrite !lastId_rescind, lastId_register].
    rewrite !registry_rescind, registry_register, lookup_insert_eq, insert_insert_eq.
    f_equal. unfold locate in Hloc.
    assert (Map.get (default [] (registry w !! name (constructor c))) e = None) as Hget
      by (by destruct (registry w !! name (constructor c))).
    generalize dependent (default [] (registry w !! name (constructor c))).
    intros t Hget.
    rewrite Map_set_fresh by (by apply Map_get_None).
    unfold Map.delete. simpl. rewrite filter_app.
    rewrite filter_cons. simpl. rewrite decide_False by (intros H; by apply H).
    by rewrite filter_nil, app_nil_r. }
  split; [done|]. intros [t Ht]. rewrite Heq.
  unfold locate in Hloc. rewrite Ht in Hloc. by apply (rescind_absent_table w e _ t).
Qed.

Lemma register_rescind_witness :
  rescind (register tile_world 1 new_Dragged) 1 (name Dragged) = tile_world.
Proof.
  destruct (register_rescind tile_world 1 new_Dragged) as [_ H].
  - vm_compute. reflexivity.
  - apply H. eexists. vm_compute. reflexivity.
Defined.

(** ** Components are filed under their class *)


Lemma filed_register w e c : filed w → filed (register w e c).
Proof.
  unfold filed. intros Hw. rewrite registry_register.
  apply map_Forall_insert_2; [|done].
  apply Forall_forall. intros kv [->|Hin]%Map_set_elem; [done|].
  destruct (registry w !! name (constructor c)) as [t|] eqn:Ht; simpl in Hin.
  - specialize (Hw _ _ Ht). rewrite Forall_forall in Hw. by apply Hw.
  - by apply elem_of_nil in Hin.
Qed.

Lemma filed_rescind w e n : filed w → filed (rescind w e n).
Proof.
  unfold filed. intros Hw. rewrite registry_rescind.
  apply map_Forall_insert_2; [|done].
  apply Forall_forall. unfold Map.delete. intros kv [_ Hin]%list_elem_of_filter.
  destruct (registry w !! n) as [t|] eqn:Ht; simpl in Hin.
  - specialize (Hw _ _ Ht). rewrite Forall_forall in Hw. by apply Hw.
  - by apply elem_of_nil in Hin.
Qed.


#[global] Instance Stable_filed : Stable (λ s, filed (world s)).
Proof.
  split; simpl; try done.
  - intros s e. apply filed_register.
  - intros s e n. apply filed_rescind.
Qed.






Lemma Map_delete_delete (t : Table) e e' :
  Map.delete (Map.delete t e) e' = Map.delete (Map.delete t e') e.
Proof.
  unfold Map.delete. rewrite !list_filter_filter.
  apply list_filter_iff. intros kv. tauto.
Qed.

(** X5. A rescission repeated changes nothing more, and two rescissions
    give the same World in either order. *)
Theorem rescind_rescind (w : World) (e e' : EntityId) (n n' : string) :
  rescind (rescind w e n) e n = rescind w e n ∧
  rescind (rescind w e n) e' n' = rescind (rescind w e' n') e n.
Proof.
  split.
  - apply World_eq; [|by rewrite !lastId_rescind].
    rewrite !registry_rescind, lookup_insert_eq, insert_insert_eq. simpl.
    f_equal. unfold Map.delete. rewrite list_filter_filter.
    apply list_filter_iff. intros kv. tauto.
  - apply World_eq; [|by rewrite !lastId_rescind].
    rewrite !registry_rescind.
    destruct (decide (n = n')) as [<-|Hn].
    + rewrite !lookup_insert_eq, !insert_insert_eq. simpl.
      f_equal. apply Map_delete_delete.
    + rewrite !lookup_insert_ne by done. by apply insert_insert_ne.
Qed.

(** ** Dragging tiles *)

Lemma onMouseMove_writes event s :
  wf s → drag_ready (world s) → positions_unshared (world s) →
  TileDragSystem.onMouseMove event s =
  (Normal tt, with_vectors s (apply_writes (vectors s) (drag_writes s event))).
Proof.
  intros Hwf Hready Hun.
  unfold TileDragSystem.onMouseMove, for_of_queryN, drag_writes, drag_ready, queryE in *.
  erewrite bind_Normal by apply get_world_eq.
  destruct (registry (world s) !! name Dragged) as [t|] eqn:Ht; [|by destruct s].
  unfold Map.entries in *.
  match goal with |- context [for_of _ ?b] => set (body := b) end.
  assert (∀ t' vs,
            length vs = length (vectors s) →
            NoDup (Map.keys t') →
            Forall (λ kv, ∃ v p, locate (world s) kv.1 Position = Some (new_Position v) ∧
                                 vectors s !! v = Some p ∧ vs !! v = Some p) t' →
            for_of t' body (with_vectors s vs) =
            (Normal tt, with_vectors s (apply_writes vs (omap (drag_write s event) t'))))
    as Hloop.
  { clear Hready. induction t' as [|[e d] t' IH]; intros vs Hlen Hnd Hall; [done|].
    apply Forall_cons in Hall as [(v & p & Hcp & Hp & Hvs) Hall]. simpl in Hcp.
    unfold Map.keys in Hnd. csimpl in Hnd. apply NoDup_cons in Hnd as [Hfresh Hnd].
    csimpl. unfold drag_write at 1. simpl. rewrite Hcp. simpl. rewrite Hp. simpl.
    erewrite bind_Normal; cycle 1.
    { subst body. simpl. erewrite bind_Normal by apply get_world_eq.
      simpl. unfold at_index. simpl. rewrite Hcp.
      erewrite bind_Normal; cycle 1.
      { erewrite bind_Normal by apply get_position_Some.
        erewrite bind_Normal by (by apply get_x_Some).
        simpl. by apply set_x_Some. }
      erewrite bind_Normal by apply get_position_Some.
      erewrite bind_Normal; cycle 1.
      { apply get_y_Some. simpl. apply list_lookup_insert_eq. by eapply lookup_lt_Some. }
      simpl. erewrite set_y_Some; cycle 1.
      { simpl. apply list_lookup_insert_eq. by eapply lookup_lt_Some. }
      unfold with_vectors. simpl. by rewrite list_insert_insert_eq. }
    apply (IH (<[v := moved event p]> vs)); [by rewrite length_insert | done |].
    apply Forall_forall. intros [e' d'] Hin.
    rewrite Forall_forall in Hall. destruct (Hall _ Hin) as (v' & p' & Hcp' & Hp' & Hvs').
    exists v', p'. split_and!; [done | done |]. simpl in *.
    rewrite list_lookup_insert_ne; [done|]. intros <-.
    assert (e = e') as <- by (by eapply (positions_unshared_inj (world s))).
    apply Hfresh. apply list_elem_of_fmap. by exists (e, d'). }
  replace s with (with_vectors s (vectors s)) at 1 by (by destruct s).
  apply Hloop; [done | apply (wf_keys_unique s Hwf _ _ Ht) |].
  apply Forall_forall. intros [e d] Hin.
  rewrite Forall_forall in Hready. destruct (Hready _ Hin) as [cp Hcp]. simpl in *.
  destruct (constructor_inv_Position s e cp Hwf Hcp) as (v & p & -> & Hp). eauto.
Qed.

Lemma elem_of_drag_writes s event v a :
  (v, a) ∈ drag_writes s event ↔
  ∃ e d c p,
    (e, d) ∈ queryE (world s) Dragged ∧
    locate (world s) e Position = Some c ∧ field_position c = Some v ∧
    vectors s !! v = Some p ∧ a = moved event p.
Proof.
  unfold drag_writes. rewrite list_elem_of_omap. split.
  - intros [[e d] [Hin Hw]]. unfold drag_write in Hw. simpl in Hw.
    destruct (locate (world s) e Position) as [c|] eqn:Hc; [|done]. simpl in Hw.
    destruct (field_position c) as [v'|] eqn:Hv; [|done]. simpl in Hw.
    destruct (vectors s !! v') as [p|] eqn:Hp; [|done]. simpl in Hw.
    injection Hw as <- <-. by exists e, d, c, p.
  - intros (e & d & c & p & Hin & Hc & Hv & Hp & ->).
    exists (e, d). split; [done|].
    unfold drag_write. simpl. rewrite Hc. simpl. rewrite Hv. simpl. by rewrite Hp.
Qed.

Lemma drag_writes_lookup s event v a :
  (v, a) ∈ drag_writes s event →
  apply_writes (vectors s) (drag_writes s event) !! v = Some a.
Proof.
  intros Hin. apply apply_writes_lookup; [done | |].
  - intros a' Hin'.
    apply elem_of_drag_writes in Hin as (e & d & c & p & _ & _ & _ & Hp & ->).
    apply elem_of_drag_writes in Hin' as (e' & d' & c' & p' & _ & _ & _ & Hp' & ->).
    congruence.
  - apply elem_of_drag_writes in Hin as (e & d & c & p & _ & _ & _ & Hp & _).
    by eapply lookup_lt_Some.
Qed.




(** X8. In a well-formed state where every entity with a Dragged has a
    Position and no Vector2 is the position of two entities, two calls of
    [TileDragSystem.onMouseMove] one after the other leave the state that
    one call with the sum of their movements leaves, as long as the
    coordinates and the movements are small enough for the sums to be
    exact. *)
Theorem onMouseMove_twice (event1 event2 event : MouseEvent) (s : State) :
  wf s → drag_ready (world s) → positions_unshared (world s) →
  movementX event = movementX event1 + movementX event2 →
  movementY event = movementY event1 + movementY event2 →
  Forall (λ p, small (Vector2.x p) ∧ small (Vector2.y p)) (vectors s) →
  small (movementX event1) ∧ small (movementY event1) →
  small (movementX event2) ∧ small (movementY event2) →
  (TileDragSystem.onMouseMove event1;; TileDragSystem.onMouseMove event2) s =
  TileDragSystem.onMouseMove event s.
Proof.
  intros Hwf Hready Hun Hx Hy _ _ _.
  erewrite bind_Normal by (by apply onMouseMove_writes).
  set (s1 := with_vectors s (apply_writes (vectors s) (drag_writes s event1))).
  assert (wf s1) as Hwf1 by (apply wf_with_vectors; [apply apply_writes_length | done]).
  rewrite (onMouseMove_writes event2 s1), (onMouseMove_writes event s) by done.
  unfold with_vectors. simpl. do 2 f_equal.
  apply list_eq. intros v.
  destruct (decide (v ∈ (drag_writes s event).*1)) as [Hin|Hout].
  - apply list_elem_of_fmap in Hin as [[v' a] [Hv' Hin]]. simpl in Hv'. subst v'.
    rewrite (drag_writes_lookup s event v a Hin).
    apply elem_of_drag_writes in Hin as (e & d & c & p & Hin & Hc & Hv & Hp & ->).
    assert ((v, moved event1 p) ∈ drag_writes s event1) as H1
      by (apply elem_of_drag_writes; by exists e, d, c, p).
    apply (drag_writes_lookup s1 event2).
    apply elem_of_drag_writes. exists e, d, c, (moved event1 p).
    split_and!; try done.
    + by apply drag_writes_lookup.
    + unfold moved. simpl. f_equal; lia.
  - assert (∀ ev s0, world s0 = world s → length (vectors s0) = length (vectors s) →
              v ∉ (drag_writes s0 ev).*1) as Hnot.
    { intros ev s0 Hw0 Hlen Hin. apply Hout.
      apply list_elem_of_fmap in Hin as [[v' a] [Hv' Hin]]. simpl in Hv'. subst v'.
      apply elem_of_drag_writes in Hin as (e & d & c & p & Hin & Hc & Hv & Hp & ->).
      rewrite Hw0 in Hin, Hc.
      assert (v < length (vectors s))%nat as Hlt
        by (rewrite <- Hlen; by eapply lookup_lt_Some).
      apply lookup_lt_is_Some in Hlt as [p0 Hp0].
      apply list_elem_of_fmap. exists (v, moved event p0). split; [done|].
      apply elem_of_drag_writes. by exists e, d, c, p0. }
    rewrite !apply_writes_lookup_other; try done.
    + by apply Hnot.
    + apply Hnot; [done | apply apply_writes_length].
Qed.

Lemma onMouseMove_twice_witness :
  (TileDragSystem.onMouseMove (mkMouseEvent 0 0 1 2 1);;
   TileDragSystem.onMouseMove (mkMouseEvent 0 0 3 4 1)) tile_state =
  TileDragSystem.onMouseMove (mkMouseEvent 0 0 4 6 1) tile_state.
Proof.
  apply (onMouseMove_twice (mkMouseEvent 0 0 1 2 1) (mkMouseEvent 0 0 3 4 1)
           (mkMouseEvent 0 0 4 6 1) tile_state).
  - apply (bool_decide_unpack _). vm_compute. exact I.
  - apply (bool_decide_unpack _). vm_compute. exact I.
  - apply (bool_decide_unpack _). vm_compute. exact I.
  - reflexivity.
  - reflexivity.
  - unfold small. repeat constructor; simpl; lia.
  - unfold small. simpl. lia.
  - unfold small. simpl. lia.
Defined.

(** ** Scrolling *)

(** ScrollDragSystem *)

Lemma head_locate w T e0 c : head (queryE w T) = Some (e0, c) → locate w e0 T = Some c.
Proof.
  unfold locate, queryE, Map.entries.
  destruct (registry w !! name T) as [[|[k c'] t]|]; try done.
  simpl. intros [= -> ->]. by destruct (decide (e0 = e0)).
Qed.

Lemma head_queryUnique w T e0 c :
  head (queryE w T) = Some (e0, c) → queryUnique w T = Normal (Some c).
Proof.
  unfold queryUnique, queryE, Map.entries, Map.values.
  destruct (registry w !! name T) as [[|[k c'] t]|]; try done.
  simpl. by intros [= -> ->].
Qed.

Lemma onScroll_pans event s e0 v p :
  Z.land (buttons event) 2 ≠ 0 →
  head (queryE (world s) DisplayFrame) = Some (e0, new_DisplayFrame v) →
  vectors s !! v = Some p →
  ScrollDragSystem.onMouseMove event s =
  (Normal tt,
   with_vectors s (<[v := Vector2.new (Vector2.x p - movementX event)
                                      (Vector2.y p - movementY event)]> (vectors s))).
Proof.
  intros Hb Hhead Hp. unfold ScrollDragSystem.onMouseMove.
  rewrite bool_decide_true by done.
  erewrite bind_Normal by apply get_world_eq.
  pose proof (head_queryUnique _ _ _ _ Hhead) as Hq.
  erewrite bind_Normal by (unfold lift; by rewrite Hq).
  erewrite bind_Normal; cycle 1.
  { erewrite bind_Normal by reflexivity. simpl.
    erewrite bind_Normal by (by apply get_x_Some).
    by apply set_x_Some. }
  erewrite bind_Normal by reflexivity. simpl.
  erewrite bind_Normal; cycle 1.
  { apply get_y_Some. simpl. apply list_lookup_insert_eq. by eapply lookup_lt_Some. }
  simpl. erewrite set_y_Some; cycle 1.
  { simpl. apply list_lookup_insert_eq. by eapply lookup_lt_Some. }
  unfold with_vectors. simpl. by rewrite list_insert_insert_eq.
Qed.





(** ** The dispatcher *)

Lemma for_of_app {X} (xs ys : list X) (body : X → M unit) (s : State) :
  for_of (xs ++ ys) body s =
  match for_of xs body s with
  | (Normal _, s') => for_of ys body s'
  | (Throw e, s') => (Throw e, s')
  end.
Proof.
  revert s. induction xs as [|x xs IH]; intros s; simpl; [done|].
  unfold mbind, M_bind. destruct (body x s) as [[[]|e] s']; [apply IH | done].
Qed.

Lemma for_of_singleton {X} (x : X) (body : X → M unit) (s : State) :
  for_of [x] body s = body x s.
Proof.
  simpl. unfold mbind, M_bind. by destruct (body x s) as [[[]|e] s'].
Qed.

(** X11. Each handler of a registry calls the handler of the same name
    of its systems, with its own arguments, in the order of the array,
    and a system that throws ends the call: the systems after it do not
    run.  An event goes to the handler of its kind, a frame with delta 0.
    Hence the systems of [xs ++ ys] are those of [xs] followed, when these
    return, by those of [ys]; a registry in the array counts for its
    systems; and an empty registry and a [System] that overrides nothing
    do nothing. *)
Theorem deliver_app (x : System.t) (xs ys : list System.t) (delta : Z)
    (event : MouseEvent) (ev : Event) (s : State) :
  let registry_of := SystemRegistry.new in
  let next (r : Completion unit * State) (m : M unit) :=
    match r with
    | (Normal _, s') => m s'
    | (Throw e, s') => (Throw e, s')
    end in
  (System.onFrame (registry_of (x :: xs)) delta s =
     next (System.onFrame x delta s) (System.onFrame (registry_of xs) delta) ∧
   System.onMouseMove (registry_of (x :: xs)) event s =
     next (System.onMouseMove x event s) (System.onMouseMove (registry_of xs) event) ∧
   System.onMouseUp (registry_of (x :: xs)) event s =
     next (System.onMouseUp x event s) (System.onMouseUp (registry_of xs) event) ∧
   System.onMouseDown (registry_of (x :: xs)) event s =
     next (System.onMouseDown x event s) (System.onMouseDown (registry_of xs) event)) ∧
  (System.onFrame (registry_of []) delta s = (Normal tt, s) ∧
   System.onMouseMove (registry_of []) event s = (Normal tt, s) ∧
   System.onMouseUp (registry_of []) event s = (Normal tt, s) ∧
   System.onMouseDown (registry_of []) event s = (Normal tt, s)) ∧
  deliver xs ev s =
    match ev with
    | Frame => System.onFrame (registry_of xs) 0 s
    | MouseMove event => System.onMouseMove (registry_of xs) event s
    | MouseUp event => System.onMouseUp (registry_of xs) event s
    | MouseDown event => System.onMouseDown (registry_of xs) event s
    end ∧
  deliver (xs ++ ys) ev s = next (deliver xs ev s) (deliver ys ev) ∧
  deliver (SystemRegistry.new xs :: ys) ev s = deliver (xs ++ ys) ev s ∧
  deliver [] ev s = (Normal tt, s) ∧
  deliver [System.base] ev s = (Normal tt, s).
Proof.
  cbv zeta. split_and!.
  - simpl. unfold SystemRegistry.onFrame. simpl. unfold mbind, M_bind.
    by destruct (System.onFrame x delta s) as [[[]|e] s'].
  - simpl. unfold SystemRegistry.onMouseMove. simpl. unfold mbind, M_bind.
    by destruct (System.onMouseMove x event s) as [[[]|e] s'].
  - simpl. unfold SystemRegistry.onMouseUp. simpl. unfold mbind, M_bind.
    by destruct (System.onMouseUp x event s) as [[[]|e] s'].
  - simpl. unfold SystemRegistry.onMouseDown. simpl. unfold mbind, M_bind.
    by destruct (System.onMouseDown x event s) as [[[]|e] s'].
  - done.
  - done.
  - done.
  - done.
  - by destruct ev.
  - destruct ev; apply for_of_app.
  - destruct ev; simpl;
      unfold SystemRegistry.onFrame, SystemRegistry.onMouseMove,
        SystemRegistry.onMouseUp, SystemRegistry.onMouseDown;
      rewrite for_of_app; simpl; unfold mbind, M_bind; simpl;
      unfold SystemRegistry.onFrame, SystemRegistry.onMouseMove,
        SystemRegistry.onMouseUp, SystemRegistry.onMouseDown;
      match goal with
      | |- context [for_of xs ?b s] => by destruct (for_of xs b s) as [[[]|e] s']
      end.
  - by destruct ev.
  - by destruct ev.
Qed.

(** ** Drawing *)

Lemma draw_for_Normal {X} (xs : list X) body (f : X → list Draw) :
  Forall (λ x, body x = Normal (f x)) xs →
  draw_for xs body = (xs ≫= f, Normal tt).
Proof.
  induction 1 as [|x xs Hx _ IH]; [done|]. simpl. by rewrite Hx, IH.
Qed.


Lemma screenPosition_missing s e :
  wf s → screen_of s e = None →
  CanvasSystem.screenPosition (Map.of_entries (queryE (world s) DisplayFrame))
    (locate (world s) e Position) (locate (world s) e DisplayPlane) s =
  (Throw TypeError, s).
Proof.
  intros Hwf. pose proof (wf_keys_unique s Hwf) as Hw.
  unfold screen_of, position_of, frame_of, CanvasSystem.screenPosition.
  destruct (locate (world s) e Position) as [cp|] eqn:Hcp; simpl.
  - destruct (constructor_inv_Position s e cp Hwf Hcp) as (v & p & -> & Hp).
    simpl. rewrite Hp. simpl.
    destruct (locate (world s) e DisplayPlane) as [cpl|] eqn:Hcpl; [|done].
    destruct (wf_locate s e DisplayPlane cpl Hwf Hcpl) as [Hc _].
    destruct cpl; try done. simpl. rewrite frames_get by done.
    destruct (locate (world s) plane DisplayFrame) as [cf|] eqn:Hcf; simpl.
    + destruct (wf_locate s plane DisplayFrame cf Hwf Hcf) as [Hc' Ha].
      destruct cf; try done. simpl in *.
      apply lookup_lt_is_Some in Ha as [f Hf]. by rewrite Hf.
    + intros _.
      erewrite bind_Normal by apply get_position_Some. simpl.
      erewrite bind_Normal by (by apply get_x_Some). done.
  - intros _. by destruct (locate (world s) e DisplayPlane).
Qed.

Lemma screenPosition_found s e origin :
  keys_unique (world s) → screen_of s e = Some origin →
  CanvasSystem.screenPosition (Map.of_entries (queryE (world s) DisplayFrame))
    (locate (world s) e Position) (locate (world s) e DisplayPlane) s =
  (Normal origin, s).
Proof. intros Hw. by apply (screenPosition_screen_of s s). Qed.

Lemma wf_queryE s T e c :
  wf s → (e, c) ∈ queryE (world s) T → constructor c = T ∧ allocated s c.
Proof.
  unfold queryE. intros Hwf Hin.
  destruct (registry (world s) !! name T) as [t|] eqn:Ht; simpl in *.
  - by apply (wf_entry s T t e c).
  - by apply elem_of_nil in Hin.
Qed.

Lemma head_Canvas s c :
  wf s → head (query (world s) Canvas) = Some c → ∃ ctx canvas, c = new_Canvas ctx canvas.
Proof.
  intros Hwf Hc. rewrite query_queryE in Hc.
  destruct (queryE (world s) Canvas) as [|[e c'] t] eqn:Ht; [done|].
  simpl in Hc. injection Hc as ->.
  destruct (wf_queryE s Canvas e c Hwf) as [Hk _]; [rewrite Ht; apply list_elem_of_here|].
  destruct c; try done. eauto.
Qed.

Lemma draw_for_map {X Y} (g : X → Y) (xs : list X) body :
  draw_for (map g xs) body = draw_for xs (λ x, body (g x)).
Proof. induction xs as [|x xs IH]; simpl; [done|]. by rewrite IH. Qed.

Lemma constructor_Sprite c : constructor c = Sprite → ∃ image, c = new_Sprite image.
Proof. destruct c; try done. eauto. Qed.

Lemma constructor_Label c : constructor c = Label → ∃ label, c = new_Label label.
Proof. destruct c; try done. eauto. Qed.

(** The body of the first loop of [CanvasSystem.onFrame] on the row of
    one entry of the Sprite table. *)
Lemma sprite_body s ctx e c :
  wf s → (e, c) ∈ queryE (world s) Sprite →
  let row := queryN_row (world s) [Position; DisplayPlane] (e, c) in
  match (CanvasSystem.screenPosition (Map.of_entries (queryE (world s) DisplayFrame))
           (at_index row 1) (at_index row 2) s).1 with
  | Throw err => Throw err
  | Normal position =>
      match at_index row 0 with
      | Some (new_Sprite image) =>
          Normal [drawImage ctx image (Vector2.x position) (Vector2.y position)]
      | _ => Throw Corrupt
      end
  end =
  match screen_of s e with
  | Some _ => Normal (sprite_draws s ctx (e, c))
  | None => Throw TypeError
  end.
Proof.
  intros Hwf Hin. cbv zeta. unfold at_index. simpl.
  destruct (wf_queryE s Sprite e c Hwf Hin) as [[image ->]%constructor_Sprite _].
  unfold sprite_draws. simpl.
  destruct (screen_of s e) as [origin|] eqn:Ho.
  - rewrite (screenPosition_found s e origin); [done | by apply wf_keys_unique | done].
  - by rewrite (screenPosition_missing s e).
Qed.

Lemma label_body s ctx e c :
  wf s → (e, c) ∈ queryE (world s) Label →
  let row := queryN_row (world s) [Position; DisplayPlane] (e, c) in
  match (CanvasSystem.screenPosition (Map.of_entries (queryE (world s) DisplayFrame))
           (at_index row 1) (at_index row 2) s).1 with
  | Throw err => Throw err
  | Normal position =>
      match at_index row 0 with
      | Some (new_Label label) =>
          Normal [font ctx "48px serif"; fillStyle ctx "black";
                  fillText ctx label (Vector2.x position + 15) (Vector2.y position + 48)]
      | _ => Throw Corrupt
      end
  end =
  match screen_of s e with
  | Some _ => Normal (label_draws s ctx (e, c))
  | None => Throw TypeError
  end.
Proof.
  intros Hwf Hin. cbv zeta. unfold at_index. simpl.
  destruct (wf_queryE s Label e c Hwf Hin) as [[label ->]%constructor_Label _].
  unfold label_draws. simpl.
  destruct (screen_of s e) as [origin|] eqn:Ho.
  - rewrite (screenPosition_found s e origin); [done | by apply wf_keys_unique | done].
  - by rewrite (screenPosition_missing s e).
Qed.

Lemma canvas_paints delta s ctx canvas :
  wf s → draw_ready s →
  queryUnique (world s) Canvas = Normal (Some (new_Canvas ctx canvas)) →
  CanvasSystem_onFrame delta s =
  (background ctx canvas ++
   (queryE (world s) Sprite ≫= sprite_draws s ctx) ++
   (queryE (world s) Label ≫= label_draws s ctx), Normal tt).
Proof.
  intros Hwf [Hsprites Hlabels] Hcanvas.
  unfold CanvasSystem_onFrame. rewrite Hcanvas.
  unfold query3. rewrite !queryN_queryE, !draw_for_map.
  rewrite (draw_for_Normal _ _ (sprite_draws s ctx)); cycle 1.
  { apply Forall_forall. intros [e c] Hin.
    rewrite (sprite_body s ctx e c Hwf Hin).
    rewrite Forall_forall in Hsprites. destruct (Hsprites _ Hin) as [o Ho]. simpl in Ho. by rewrite Ho. }
  rewrite (draw_for_Normal _ _ (label_draws s ctx)); cycle 1.
  { apply Forall_forall. intros [e c] Hin.
    rewrite (label_body s ctx e c Hwf Hin).
    rewrite Forall_forall in Hlabels. destruct (Hlabels _ Hin) as [o Ho]. simpl in Ho. by rewrite Ho. }
  done.
Qed.





(** ** No handler of [main] throws *)

Lemma onMouseMove_returns event s :
  wf s → drag_ready (world s) →
  ∃ vs, TileDragSystem.onMouseMove event s = (Normal tt, with_vectors s vs) ∧
        length vs = length (vectors s).
Proof.
  intros Hwf Hready.
  unfold TileDragSystem.onMouseMove, for_of_queryN, drag_ready, queryE in *.
  erewrite bind_Normal by apply get_world_eq.
  destruct (registry (world s) !! name Dragged) as [t|] eqn:Ht;
    [|exists (vectors s); by destruct s].
  unfold Map.entries in *.
  match goal with |- context [for_of _ ?b] => set (body := b) end.
  assert (∀ t' vs,
            length vs = length (vectors s) →
            Forall (λ kv, is_Some (locate (world s) kv.1 Position)) t' →
            ∃ vs', for_of t' body (with_vectors s vs) = (Normal tt, with_vectors s vs') ∧
                   length vs' = length (vectors s)) as Hloop.
  { clear Hready. induction t' as [|[e d] t' IH]; intros vs Hlen Hall; [by exists vs|].
    apply Forall_cons in Hall as [[cp Hcp] Hall]. simpl in Hcp.
    destruct (constructor_inv_Position s e cp Hwf Hcp) as (v & p0 & -> & Hp0).
    assert (is_Some (vs !! v)) as [p Hp].
    { apply lookup_lt_is_Some. rewrite Hlen. by eapply lookup_lt_Some. }
    destruct (IH (<[v := moved event p]> vs)) as (vs' & Hrun & Hlen');
      [by rewrite length_insert | done |].
    exists vs'. split; [|done]. simpl.
    erewrite bind_Normal; [exact Hrun|].
    subst body. simpl. erewrite bind_Normal by apply get_world_eq.
    simpl. unfold at_index. simpl. rewrite Hcp.
    erewrite bind_Normal; cycle 1.
    { erewrite bind_Normal by apply get_position_Some.
      erewrite bind_Normal by (by apply get_x_Some).
      simpl. by apply set_x_Some. }
    erewrite bind_Normal by apply get_position_Some.
    erewrite bind_Normal; cycle 1.
    { apply get_y_Some. simpl. apply list_lookup_insert_eq. by eapply lookup_lt_Some. }
    simpl. erewrite set_y_Some; cycle 1.
    { simpl. apply list_lookup_insert_eq. by eapply lookup_lt_Some. }
    unfold with_vectors. simpl. by rewrite list_insert_insert_eq. }
  destruct (Hloop t (vectors s)) as (vs' & Hrun & Hlen); [done | done |].
  exists vs'. split; [|done]. rewrite <- Hrun. by destruct s.
Qed.

Lemma screen_of_position s e :
  is_Some (screen_of s e) → is_Some (locate (world s) e Position).
Proof.
  unfold screen_of, position_of.
  destruct (locate (world s) e Position); [done | by intros [? ?]].
Qed.

Lemma elem_of_queryE_locate w T e c : (e, c) ∈ queryE w T → is_Some (locate w e T).
Proof.
  intros Hin. apply elem_of_keys_queryE. apply list_elem_of_fmap. by exists (e, c).
Qed.

(** A state with the World of a playable one, up to who is dragged, is
    playable when the dragged entities were dragged or are draggable. *)
Lemma playable_redrag s s' :
  playable s → wf s' →
  (∀ n, n ≠ name Dragged → registry (world s') !! n = registry (world s) !! n) →
  (∀ e, is_Some (locate (world s') e Dragged) →
        is_Some (locate (world s) e Dragged) ∨ is_Some (locate (world s) e Draggable)) →
  playable s'.
Proof.
  intros (Hwf & Hsnap & Hdrop & Hdraggable & Hsprites & Hlabels & Hc & Hf & Hp)
    Hwf' Hsame Hdragged.
  assert (∀ T, name T ≠ name Dragged → queryE (world s') T = queryE (world s) T) as HqE.
  { intros T HT. unfold queryE. by rewrite Hsame. }
  assert (∀ T, name T ≠ name Dragged → query (world s') T = query (world s) T) as Hq.
  { intros T HT. unfold query. by rewrite Hsame. }
  assert (∀ e T, name T ≠ name Dragged → locate (world s') e T = locate (world s) e T)
    as Hloc.
  { intros e T HT. unfold locate. by rewrite Hsame. }
  assert (∀ e, is_Some (screen_of s e) → is_Some (screen_of s' e)) as Hscreen.
  { intros e. unfold screen_of, position_of, frame_of.
    rewrite !Hloc by done.
    destruct (locate (world s) e Position) as [cp|] eqn:Hcp; simpl; [|by intros [? ?]].
    rewrite <- Hloc in Hcp by done.
    destruct (constructor_inv_Position s' e cp Hwf' Hcp) as (v & p & -> & Hv).
    simpl. rewrite Hv. simpl.
    destruct (vectors s !! v) as [p0|]; simpl; [|by intros [? ?]].
    destruct (locate (world s) e DisplayPlane) as [cpl|]; [|done].
    destruct (field_plane cpl) as [pl|]; simpl; [|by intros [? ?]].
    rewrite !Hloc by done.
    destruct (locate (world s) pl DisplayFrame) as [cf|] eqn:Hcf; simpl; [|by intros [? ?]].
    rewrite <- Hloc in Hcf by done.
    destruct (wf_locate s' pl DisplayFrame cf Hwf' Hcf) as [Hk Ha].
    destruct cf; try done. simpl in *.
    apply lookup_lt_is_Some in Ha as [f ->]. simpl.
    destruct (vectors s !! innerPosition); simpl; [done | by intros [? ?]]. }
  assert (∀ e, is_Some (locate (world s) e Dragged) →
               is_Some (locate (world s) e Position) ∧
               is_Some (locate (world s) e GridPosition)) as Hwas.
  { intros e [d Hd]. unfold drop_ready in Hdrop. rewrite Forall_forall in Hdrop.
    apply (Hdrop (e, d)). by apply locate_queryE. }
  assert (∀ e, is_Some (locate (world s) e Draggable) →
               is_Some (locate (world s) e Position) ∧
               is_Some (locate (world s) e GridPosition)) as Hcan.
  { intros e [d Hd]. rewrite Forall_forall in Hdraggable.
    destruct (Hdraggable (e, d)) as [Ho Hg]; [by apply locate_queryE|].
    split; [by apply screen_of_position | done]. }
  split_and!.
  - done.
  - unfold snap_ready in *. rewrite HqE by done.
    apply Forall_forall. intros [e c] Hin Hnone. simpl in *. rewrite Hloc by done.
    rewrite Forall_forall in Hsnap.
    destruct (locate (world s) e Dragged) as [d|] eqn:Hd.
    + by apply Hwas.
    + by apply (Hsnap (e, c)).
  - unfold drop_ready. apply Forall_forall. intros [e d] Hin. simpl.
    rewrite !Hloc by done.
    destruct (Hdragged e) as [H|H]; [by eapply elem_of_queryE_locate | auto | auto].
  - rewrite HqE by done. rewrite Forall_forall in Hdraggable.
    apply Forall_forall. intros kv Hin. destruct (Hdraggable kv Hin) as [Ho Hg].
    rewrite Hloc by done. auto.
  - rewrite HqE by done. eapply Forall_impl; [exact Hsprites | auto].
  - rewrite HqE by done. eapply Forall_impl; [exact Hlabels | auto].
  - by rewrite Hq.
  - by rewrite Hq.
  - by rewrite Hq.
Qed.

Lemma playable_store s s' :
  playable s → world s' = world s →
  length (vectors s') = length (vectors s) → length (grids s') = length (grids s) →
  playable s'.
Proof.
  intros Hs Hworld Hvs Hgs. apply (playable_redrag s); [done | | |].
  - destruct Hs as [Hwf _]. by apply (wf_same_store s).
  - intros n _. by rewrite Hworld.
  - intros e He. left. by rewrite <- Hworld.
Qed.

Lemma registry_flag_all w es n :
  n ≠ name Dragged → registry (flag_all w es) !! n = registry w !! n.
Proof.
  intros Hn. unfold flag_all. revert w.
  induction es as [|e es IH]; intros w; simpl; [done|].
  rewrite IH, registry_register. by rewrite lookup_insert_ne.
Qed.

Lemma registry_rescind_all w es n :
  n ≠ name Dragged → registry (rescind_all w es) !! n = registry w !! n.
Proof.
  intros Hn. unfold rescind_all. revert w.
  induction es as [|e es IH]; intros w; simpl; [done|].
  rewrite IH, registry_rescind. by rewrite lookup_insert_ne.
Qed.

Lemma rescind_all_locate_Some w es e T c :
  locate (rescind_all w es) e T = Some c → locate w e T = Some c.
Proof.
  unfold rescind_all. revert w.
  induction es as [|e0 es IH]; intros w; cbn [foldl]; [done|].
  intros H. apply IH in H. revert H.
  destruct (decide (e0 = e)) as [->|He].
  - destruct (decide (name T = name Dragged)) as [HT|HT].
    + rewrite (Class_name_inj _ _ HT). by rewrite locate_rescind_eq.
    + rewrite locate_rescind_ne by auto. done.
  - rewrite locate_rescind_ne by auto. done.
Qed.

Lemma non_empty_queryUnique w T :
  query w T ≠ [] →
  ∃ e c, head (queryE w T) = Some (e, c) ∧ queryUnique w T = Normal (Some c).
Proof.
  rewrite query_queryE. intros Hne.
  destruct (queryE w T) as [|[e c] t] eqn:Ht; [done|].
  exists e, c. split; [done|]. apply (head_queryUnique w T e). by rewrite Ht.
Qed.

(** What the registry of [main] does with each event. *)
Lemma deliver_main ev s :
  deliver main_systems ev s =
  match ev with
  | Frame =>
      match GridPositionSystem.onFrame 0 s with
      | (Normal _, s') => ((CanvasSystem_onFrame 0 s').2, s')
      | (Throw e, s') => (Throw e, s')
      end
  | MouseMove event =>
      match ScrollDragSystem.onMouseMove event s with
      | (Normal _, s') => TileDragSystem.onMouseMove event s'
      | (Throw e, s') => (Throw e, s')
      end
  | MouseUp event => TileDragSystem.onMouseUp event s
  | MouseDown event => TileDragSystem.onMouseDown event s
  end.
Proof.
  destruct ev;
    unfold deliver, SystemRegistry.onFrame, SystemRegistry.onMouseMove,
      SystemRegistry.onMouseUp, SystemRegistry.onMouseDown, main_systems,
      new_GridPositionSystem, new_CanvasSystem, new_ScrollDragSystem,
      new_TileDragSystem, System.base;
    cbn [for_of System.onFrame System.onMouseMove System.onMouseUp System.onMouseDown];
    unfold mbind, M_bind, mret, M_ret; cbn beta.
  - destruct (GridPositionSystem.onFrame 0 s) as [[[]|e] s']; [|done].
    by destruct (CanvasSystem_onFrame 0 s').2 as [[]|e].
  - destruct (ScrollDragSystem.onMouseMove event s) as [[[]|e] s']; [|done].
    by destruct (TileDragSystem.onMouseMove event s') as [[[]|e] s''].
  - by destruct (TileDragSystem.onMouseUp event s) as [[[]|e] s'].
  - by destruct (TileDragSystem.onMouseDown event s) as [[[]|e] s'].
Qed.

Lemma playable_onFrame s :
  playable s →
  ∃ s', GridPositionSystem.onFrame 0 s = (Normal tt, s') ∧ playable s'.
Proof.
  intros Hs. pose proof Hs as (Hwf & Hsnap & _).
  rewrite onFrame_writes by done. eexists. split; [done|].
  apply (playable_store s); simpl; [done | done | apply apply_writes_length | done].
Qed.

Lemma playable_paints delta s : playable s → (CanvasSystem_onFrame delta s).2 = Normal tt.
Proof.
  intros (Hwf & _ & _ & _ & Hsprites & Hlabels & Hc & _ & _).
  destruct (non_empty_queryUnique _ _ Hc) as (e & c & Hhead & Hq).
  destruct (head_Canvas s c Hwf) as (ctx & canvas & ->).
  { rewrite query_queryE. by destruct (queryE (world s) Canvas) as [|[? ?] ?]; simplify_eq/=. }
  by rewrite (canvas_paints delta s ctx canvas).
Qed.

Lemma playable_onScroll event s :
  playable s →
  ∃ s', ScrollDragSystem.onMouseMove event s = (Normal tt, s') ∧ playable s'.
Proof.
  intros Hs. pose proof Hs as (Hwf & _ & _ & _ & _ & _ & _ & Hf & _).
  destruct (decide (Z.land (buttons event) 2 ≠ 0)) as [Hb|Hb].
  - destruct (non_empty_queryUnique _ _ Hf) as (e & c & Hhead & Hq).
    destruct (wf_locate s e DisplayFrame c Hwf (head_locate _ _ _ _ Hhead)) as [Hk Ha].
    destruct c; try done. simpl in Ha. apply lookup_lt_is_Some in Ha as [p Hp].
    rewrite (onScroll_pans event s e innerPosition p) by done.
    eexists. split; [done|].
    apply (playable_store s); simpl; [done | done | apply length_insert | done].
  - exists s. split; [|done]. unfold ScrollDragSystem.onMouseMove.
    by rewrite bool_decide_false.
Qed.

Lemma playable_onMouseMove event s :
  playable s →
  ∃ s', TileDragSystem.onMouseMove event s = (Normal tt, s') ∧ playable s'.
Proof.
  intros Hs. pose proof Hs as (Hwf & _ & Hdrop & _).
  destruct (onMouseMove_returns event s Hwf) as (vs & -> & Hlen).
  { eapply Forall_impl; [exact Hdrop|]. by intros kv [? _]. }
  eexists. split; [done|]. by apply (playable_store s).
Qed.

Lemma playable_onMouseDown event s :
  playable s →
  ∃ s', TileDragSystem.onMouseDown event s = (Normal tt, s') ∧ playable s'.
Proof.
  intros Hs. pose proof Hs as (Hwf & _ & _ & Hdraggable & _).
  pose proof (keeps_onMouseDown wf event s Hwf) as Hwf'.
  rewrite onMouseDown_flags_hits in *; [|by apply wf_keys_unique | |by apply wf_keys_unique | ].
  2, 3: eapply Forall_impl; [exact Hdraggable|]; by intros kv [? _].
  eexists. split; [done|]. simpl in Hwf'.
  apply (playable_redrag s); [done | done | |]; simpl.
  - intros n Hn. by apply registry_flag_all.
  - intros e He. destruct (decide (e ∈ hits s event)) as [Hin|Hin].
    + right. by apply elem_of_hits in Hin as [? _].
    + left. by rewrite flag_all_locate_notin in He.
Qed.

Lemma playable_onMouseUp event s :
  playable s →
  ∃ s', TileDragSystem.onMouseUp event s = (Normal tt, s') ∧ playable s'.
Proof.
  intros Hs. pose proof Hs as (Hwf & _ & Hdrop & _ & _ & _ & _ & _ & Hp).
  pose proof (keeps_onMouseUp wf event s Hwf) as Hwf'.
  destruct (non_empty_queryUnique _ _ Hp) as (e & player & _ & Hq).
  rewrite (onMouseUp_drops event s player) in * by done.
  eexists. split; [done|]. simpl in Hwf'.
  apply (playable_redrag s); [done | done | |]; simpl.
  - intros n Hn. by apply registry_rescind_all.
  - intros e' [d Hd]. left. exists d. by eapply rescind_all_locate_Some.
Qed.

Lemma playable_deliver ev s :
  playable s → ∃ s', deliver main_systems ev s = (Normal tt, s') ∧ playable s'.
Proof.
  intros Hs. rewrite deliver_main. destruct ev.
  - destruct (playable_onFrame s Hs) as (s' & -> & Hs').
    exists s'. by rewrite playable_paints.
  - destruct (playable_onScroll event s Hs) as (s' & -> & Hs').
    by apply playable_onMouseMove.
  - by apply playable_onMouseUp.
  - by apply playable_onMouseDown.
Qed.

Lemma playable_play events s :
  playable s →
  playable (play main_systems s events).1 ∧
  (play main_systems s events).2 = replicate (length events) (Normal tt).
Proof.
  revert s. induction events as [|ev events IH]; intros s Hs; [done|].
  simpl. destruct (playable_deliver ev s Hs) as (s' & -> & Hs').
  destruct (IH s' Hs') as [Hp Hc].
  destruct (play main_systems s' events) as [s'' cs]. simpl in *. by rewrite Hc.
Qed.

Lemma playable_main image ctx canvas : playable (main_state image ctx canvas).
Proof. apply (bool_decide_unpack _). vm_compute. exact I. Qed.

(** X14. In a playable state the registry of [main] handles every event
    without throwing, and leaves a playable state. *)
Theorem deliver_playable (ev : Event) (s : State) :
  playable s →
  (deliver main_systems ev s).1 = Normal tt ∧ playable (deliver main_systems ev s).2.
Proof.
  intros Hs. by destruct (playable_deliver ev s Hs) as (s' & -> & Hs').
Qed.

Lemma deliver_playable_witness :
  let s := main_state (λ n, n) 7%nat 8%nat in
  (deliver main_systems (MouseDown press) s).1 = Normal tt ∧
  playable (deliver main_systems (MouseDown press) s).2.
Proof.
  apply (deliver_playable (MouseDown press) (main_state (λ n, n) 7%nat 8%nat)).
  apply (bool_decide_unpack _). vm_compute. exact I.
Defined.

(** X15. The game that [main] sets up never throws: whatever images,
    context and canvas the page provides and whatever events arrive, in
    whatever order, every handler call returns, and the state stays
    playable. *)
Theorem main_never_throws (image : nat → Handle) (ctx canvas : Handle)
    (events : list Event) :
  let r := play main_systems (main_state image ctx canvas) events in
  r.2 = replicate (length events) (Normal tt) ∧ playable r.1.
Proof.
  cbv zeta. destruct (playable_play events (main_state image ctx canvas)); [|done].
  apply playable_main.
Qed.

(** ** Dragging and dropping *)

Lemma same_board_refl w : same_board w w.
Proof. by intros n _. Qed.

Lemma same_board_locate w w' e T :
  same_board w w' → name T ≠ name Dragged → locate w' e T = locate w e T.
Proof. intros H HT. unfold locate. by rewrite H. Qed.




Lemma same_board_grid s s' e :
  same_board (world s) (world s') → grids s' = grids s →
  grid_of s' e = grid_of s e.
Proof.
  intros H Hgs. unfold grid_of. by rewrite (same_board_locate _ _ _ _ H), Hgs.
Qed.











(** X18. Events that find nothing to do.  In any state, a move without the
    right button when no entity is dragged, and a press when no entity is
    draggable, return and leave the state as it is.  A release throws
    when the World has no PlayerProperties table, also when no entity is
    dragged, and leaves the state as it is. *)
Theorem deliver_idle (event : MouseEvent) (s : State) :
  (Z.land (buttons event) 2 = 0 → queryE (world s) Dragged = [] →
   deliver main_systems (MouseMove event) s = (Normal tt, s)) ∧
  (queryE (world s) Draggable = [] →
   deliver main_systems (MouseDown event) s = (Normal tt, s)) ∧
  (registry (world s) !! name PlayerProperties = None →
   deliver main_systems (MouseUp event) s =
   (Throw (ComponentNotRegistered (name PlayerProperties)), s)).
Proof.
  split_and!.
  - intros Hb Hnone. rewrite deliver_main.
    unfold ScrollDragSystem.onMouseMove.
    rewrite bool_decide_false by (by intros H; apply H).
    unfold mret, M_ret.
    unfold TileDragSystem.onMouseMove, for_of_queryN.
    erewrite bind_Normal by apply get_world_eq.
    unfold queryE, Map.entries in Hnone.
    destruct (registry (world s) !! name Dragged) as [t|]; [|done]. by subst.
  - intros Hnone. rewrite deliver_main.
    unfold TileDragSystem.onMouseDown, for_of_queryEN.
    erewrite bind_Normal by apply get_world_eq.
    erewrite bind_Normal by apply get_world_eq.
    unfold queryE, Map.entries in Hnone.
    destruct (registry (world s) !! name Draggable) as [t|]; [|done]. by subst.
  - intros Hnone. rewrite deliver_main.
    unfold TileDragSystem.onMouseUp.
    erewrite bind_Normal by apply get_world_eq.
    apply bind_Throw. unfold lift, queryUnique. by rewrite Hnone.
Qed.

Lemma deliver_idle_witness :
  deliver main_systems (MouseMove press) rest_state = (Normal tt, rest_state) ∧
  deliver main_systems (MouseDown press) empty_state = (Normal tt, empty_state) ∧
  deliver main_systems (MouseUp press) empty_state =
  (Throw (ComponentNotRegistered "PlayerProperties"), empty_state).
Proof.
  split_and!.
  - destruct (deliver_idle press rest_state) as (H & _ & _).
    apply H; vm_compute; reflexivity.
  - destruct (deliver_idle press empty_state) as (_ & H & _).
    apply H; vm_compute; reflexivity.
  - destruct (deliver_idle press empty_state) as (_ & _ & H).
    apply H; vm_compute; reflexivity.
Defined.


